(** * Version constraints of the semver package (constraints.go)

    A shallow embedding of [constraints.go]: the clause grammar (the two
    regular expressions built in [init]), the hyphen-range rewriting, the
    two parsers ([parseConstraint] for the legacy, message-producing
    evaluator and [parseConstraintNu] for the range algebra), the legacy
    comparison functions, and [Check] / [Validate].

    Go strings are byte strings and are modelled by [string]; a Go
    [(T, error)] result is a [sum] with the value on the left. *)

From Stdlib Require Import List String Ascii NArith ZArith Bool Lia Permutation.
Import ListNotations.
Local Open Scope list_scope.
Local Open Scope string_scope.

(** ** The functions of Go's [strings] package used by the source *)

Module GoStrings.

Fixpoint drop (n : nat) (s : string) : string :=
  match n, s with
  | O, _ => s
  | S _, EmptyString => EmptyString
  | S k, String _ s' => drop k s'
  end.

(** [strings.HasPrefix(s, p)]. *)
Definition HasPrefix (s p : string) : bool := String.prefix p s.

(** [strings.TrimPrefix(s, p)]. *)
Definition TrimPrefix (s p : string) : string :=
  if HasPrefix s p then drop (String.length p) s else s.

(** [strings.ToLower] on the ASCII letters; other bytes are kept. *)
Definition lower (c : ascii) : ascii :=
  let n := nat_of_ascii c in
  if (65 <=? n)%nat && (n <=? 90)%nat then ascii_of_nat (n + 32) else c.

Fixpoint ToLower (s : string) : string :=
  match s with
  | EmptyString => EmptyString
  | String c s' => String (lower c) (ToLower s')
  end.

(** [strings.Replace(s, old, new, 1)]: the first occurrence of [old],
    scanning from the left, is replaced; [s] is returned when there is
    none. *)
Fixpoint Replace1 (s old new : string) : string :=
  if HasPrefix s old then new ++ drop (String.length old) s
  else match s with
       | EmptyString => EmptyString
       | String c s' => String c (Replace1 s' old new)
       end.

(** [strings.Split(s, sep)] for a non-empty separator.  [skip] counts the
    bytes of a separator that was just recognised and are still to be
    passed over; [acc] is the piece being collected. *)
Fixpoint split_go (sep : string) (skip : nat) (acc : string) (s : string)
  : list string :=
  match s with
  | EmptyString => [acc]
  | String c s' =>
      match skip with
      | S k => split_go sep k acc s'
      | O =>
          if HasPrefix s sep
          then acc :: split_go sep (String.length sep - 1) EmptyString s'
          else split_go sep O (acc ++ String c EmptyString) s'
      end
  end.

Definition Split (s sep : string) : list string := split_go sep O EmptyString s.

End GoStrings.

(** ** A backtracking matcher for the regular expressions of [init]

    Go's [regexp] returns, among the matches that start leftmost, the one
    a backtracking search finds first.  A pattern is therefore modelled as
    a function from the remaining input to the list of its possible
    matches in the order a backtracking search tries them; sequencing
    explores that list depth first. *)

Module Regexp.

Definition M (A : Type) : Type := string -> list (A * string).

Definition ret {A} (a : A) : M A := fun s => [(a, s)].

Definition bind {A B} (m : M A) (f : A -> M B) : M B :=
  fun s => flat_map (fun ar => f (fst ar) (snd ar)) (m s).

Definition alt {A} (m1 m2 : M A) : M A := fun s => (m1 s ++ m2 s)%list.

Definition alts {A} (ms : list (M A)) : M A :=
  fun s => flat_map (fun m => m s) ms.

Notation "x <- m ;; k" := (bind m (fun x => k))
  (at level 61, m at next level, right associativity).

(** A literal. *)
Definition lit (t : string) : M string :=
  fun s => if GoStrings.HasPrefix s t
           then [(t, GoStrings.drop (String.length t) s)] else [].

(** One byte of a class. *)
Definition chr (cls : ascii -> bool) : M string :=
  fun s => match s with
           | String c s' => if cls c then [(String c EmptyString, s')] else []
           | EmptyString => []
           end.

(** [[cls]*], greedy: the longest run first, then the shorter ones. *)
Fixpoint star (cls : ascii -> bool) (s : string) : list (string * string) :=
  match s with
  | String c s' =>
      if cls c
      then (map (fun tr => (String c (fst tr), snd tr)) (star cls s')
              ++ [(EmptyString, s)])%list
      else [(EmptyString, s)]
  | EmptyString => [(EmptyString, EmptyString)]
  end.

(** [[cls]+], greedy. *)
Definition plus (cls : ascii -> bool) : M string :=
  c <- chr cls ;; t <- star cls ;; ret (c ++ t).

(** [(m)?], greedy; a group that takes no part in the match is reported
    as the empty string, as [FindStringSubmatch] does. *)
Definition opt (m : M string) : M string := alt m (ret EmptyString).

(** [(m)*], greedy, for a pattern [m] that matches no empty string: at
    most [n] iterations are tried, and an input of [n] bytes has no room
    for more. *)
Fixpoint rep (n : nat) (m : M string) : M string :=
  match n with
  | O => ret EmptyString
  | S k => alt (a <- m ;; b <- rep k m ;; ret (a ++ b)) (ret EmptyString)
  end.

Definition many (m : M string) : M string :=
  fun s => rep (String.length s) m s.

(** The first match that reaches the end of the input ([$]). *)
Fixpoint first_full {A} (l : list (A * string)) : option A :=
  match l with
  | [] => None
  | (a, EmptyString) :: _ => Some a
  | _ :: l' => first_full l'
  end.

Definition between (lo hi : nat) (c : ascii) : bool :=
  let n := nat_of_ascii c in (lo <=? n)%nat && (n <=? hi)%nat.

Definition is_digit (c : ascii) : bool := between 48 57 c.

(** [\s] of RE2: tab, newline, form feed, carriage return, space. *)
Definition is_space (c : ascii) : bool :=
  let n := nat_of_ascii c in
  (n =? 9)%nat || (n =? 10)%nat || (n =? 12)%nat || (n =? 13)%nat || (n =? 32)%nat.

(** [[0-9A-Za-z\-]]. *)
Definition is_ident (c : ascii) : bool :=
  is_digit c || between 65 90 c || between 97 122 c || Ascii.eqb c "-".

End Regexp.

(** ** The grammar of [init]

    [cvRegex] reads: an optional [v]; a major component, one or more bytes
    of the class [0-9|x|X|\*]; an optional dot and minor component and an
    optional dot and patch component over the same class; an optional
    hyphen and prerelease tag; an optional plus sign and build tag, each
    tag a dot-separated sequence of identifiers over [0-9A-Za-z\-].
    Inside the brackets the bar is a member of the class like any other
    byte. *)

Module Grammar.
Import Regexp.

(** The groups of one [cvRegex] the source reads: the whole text, the
    major, [.minor], [.patch] and [-prerelease] groups (the last three
    with their leading separator, as the regexp captures them). *)
Record cvMatch : Type := mkCv {
  cv_text : string;
  cv_major : string;
  cv_minor : string;
  cv_patch : string;
  cv_pre : string;
  cv_build : string
}.

(** [[0-9|x|X|\*]]. *)
Definition is_cv (c : ascii) : bool :=
  is_digit c || Ascii.eqb c "|" || Ascii.eqb c "x" || Ascii.eqb c "X"
  || Ascii.eqb c "*".

(** Dot-separated identifiers: [X] followed by any number of [\.X],
    for [X = [0-9A-Za-z\-]+]. *)
Definition idents : M string :=
  a <- plus is_ident ;;
  b <- many (d <- lit "." ;; i <- plus is_ident ;; ret (d ++ i)) ;;
  ret (a ++ b).

(** The version pattern over a class [comp] of component bytes. *)
Definition version_pattern (comp : ascii -> bool) : M cvMatch :=
  v <- opt (lit "v") ;;
  ma <- plus comp ;;
  mi <- opt (d <- lit "." ;; c <- plus comp ;; ret (d ++ c)) ;;
  pa <- opt (d <- lit "." ;; c <- plus comp ;; ret (d ++ c)) ;;
  pr <- opt (h <- lit "-" ;; i <- idents ;; ret (h ++ i)) ;;
  bu <- opt (p <- lit "+" ;; i <- idents ;; ret (p ++ i)) ;;
  ret (mkCv (v ++ ma ++ mi ++ pa ++ pr ++ bu) ma mi pa pr bu).

Definition cvRegex : M cvMatch := version_pattern is_cv.

End Grammar.

(** ** Versions

    [version.go] is outside this development; [constraints.go] uses
    the type [Version], its fields [major], [minor], [patch], the accessors
    [Major], [Minor], [Patch], the comparisons [Compare], [Equal],
    [LessThan], and the parser [NewVersion]. *)

Module Ver.
Import Regexp.

(** Modelled from the spec: the type [Version] (missing from the sources)
    is an ordered tuple (major, minor, patch, prerelease, build).  The
    three numbers are what a digit string denotes; the spec gives them no
    width, so none is imposed. *)
Record Version : Type := mkVersion {
  major : N;
  minor : N;
  patch : N;
  prerelease : string;
  build : string
}.

Definition Major (v : Version) : N := major v.
Definition Minor (v : Version) : N := minor v.
Definition Patch (v : Version) : N := patch v.

Definition digit_value (c : ascii) : N := N_of_ascii c - 48.

Fixpoint atoi_from (acc : N) (s : string) : N :=
  match s with
  | EmptyString => acc
  | String c s' => atoi_from (acc * 10 + digit_value c) s'
  end.

Definition atoi (s : string) : N := atoi_from 0 s.

Fixpoint all_bytes (p : ascii -> bool) (s : string) : bool :=
  match s with
  | EmptyString => true
  | String c s' => p c && all_bytes p s'
  end.

Definition is_numeric (s : string) : bool :=
  negb (s =? "") && all_bytes is_digit s.

(** One prerelease identifier against another: numbers by value, a
    number below a word, words byte by byte. *)
Definition compare_ident (a b : string) : comparison :=
  match is_numeric a, is_numeric b with
  | true, true => N.compare (atoi a) (atoi b)
  | true, false => Lt
  | false, true => Gt
  | false, false => String.compare a b
  end.

Fixpoint compare_idents (l1 l2 : list string) : comparison :=
  match l1, l2 with
  | [], [] => Eq
  | [], _ :: _ => Lt
  | _ :: _, [] => Gt
  | a :: l1', b :: l2' =>
      match compare_ident a b with
      | Eq => compare_idents l1' l2'
      | c => c
      end
  end.

(** Modelled from the spec: the order "honors prerelease ordering
    rules", those of semantic versioning: a version without prerelease
    tag is above the same numbers with one, and two tags are compared
    identifier by identifier. *)
Definition comparePrerelease (p q : string) : comparison :=
  match p, q with
  | EmptyString, EmptyString => Eq
  | EmptyString, String _ _ => Gt
  | String _ _, EmptyString => Lt
  | _, _ => compare_idents (GoStrings.Split p ".") (GoStrings.Split q ".")
  end.

Definition compare (v o : Version) : comparison :=
  match N.compare (major v) (major o) with
  | Eq =>
      match N.compare (minor v) (minor o) with
      | Eq =>
          match N.compare (patch v) (patch o) with
          | Eq => comparePrerelease (prerelease v) (prerelease o)
          | c => c
          end
      | c => c
      end
  | c => c
  end.

(** Modelled from the spec: [Compare] (missing from the sources) is the
    total order of versions, as -1, 0 or 1; it looks at the numbers, then
    at the prerelease tags, and never at the build metadata. *)
Definition Compare (v o : Version) : Z :=
  match compare v o with
  | Lt => (-1)%Z
  | Eq => 0%Z
  | Gt => 1%Z
  end.

(** Modelled from the spec: equality and strict order are those of
    [Compare] (missing from the sources). *)
Definition Equal (v o : Version) : bool := (Compare v o =? 0)%Z.
Definition LessThan (v o : Version) : bool := (Compare v o <? 0)%Z.
Definition GreaterThan (v o : Version) : bool := (Compare v o >? 0)%Z.

(** Modelled from the spec: [NewVersion] (missing from the sources)
    parses [major[.minor[.patch]][-prerelease][+build]] with numeric
    components, an optional leading [v], and "missing components default
    to 0"; any other text is an error. *)
Definition NewVersion (s : string) : option Version :=
  match first_full (Grammar.version_pattern is_digit s) with
  | None => None
  | Some m =>
      Some {| major := atoi (Grammar.cv_major m);
              minor := atoi (GoStrings.TrimPrefix (Grammar.cv_minor m) ".");
              patch := atoi (GoStrings.TrimPrefix (Grammar.cv_patch m) ".");
              prerelease := GoStrings.TrimPrefix (Grammar.cv_pre m) "-";
              build := GoStrings.TrimPrefix (Grammar.cv_build m) "+" |}
  end.

(** A version made of numbers only. *)
Definition release (a b c : N) : Version := mkVersion a b c "" "".

End Ver.
Export Ver.

(** ** The range algebra

    The files that define the interface [Constraint] and its values are
    outside this development; [constraints.go] builds them with
    [rangeConstraint{...}], [any{}], [Union], [Intersection], and returns a
    [*Version] where a [Constraint] is expected. *)

Module Algebra.

(** Modelled from the spec: a range (missing from the sources) has
    optional bounds, a flag per bound that says whether the bound itself
    is included, and excluded versions.  The field names are those
    [constraints.go] writes. *)
Record rangeConstraint : Type := mkRange {
  min : option Version;
  max : option Version;
  includeMin : bool;
  includeMax : bool;
  excl : list Version
}.

(** Modelled from the spec: the variants of [Constraint] (missing from
    the sources): exact version, range, union, intersection, any, none. *)
#[warnings="-register-all"]
Inductive Constraint : Type :=
| exact (v : Version)
| range (r : rangeConstraint)
| unionConstraint (members : list Constraint)
| intersectionConstraint (members : list Constraint)
| any
| none.

(** Modelled from the spec: "Satisfies(Range r, v)" (missing from the
    sources): reject unless [v] is above [min] (or equal to it when
    included), reject unless it is below [max] (or equal to it when
    included), reject an excluded version, accept otherwise. *)
Definition satisfiesRange (r : rangeConstraint) (v : Version) : bool :=
  match min r with
  | Some m => GreaterThan v m || (includeMin r && Equal v m)
  | None => true
  end
  && match max r with
     | Some m => LessThan v m || (includeMax r && Equal v m)
     | None => true
     end
  && negb (existsb (Equal v) (excl r)).

(** Modelled from the spec: satisfaction for each variant (missing from
    the sources). *)
Fixpoint Satisfies (c : Constraint) (v : Version) : bool :=
  match c with
  | exact e => Equal v e
  | range r => satisfiesRange r v
  | unionConstraint l => existsb (fun k => Satisfies k v) l
  | intersectionConstraint l => forallb (fun k => Satisfies k v) l
  | any => true
  | none => false
  end.

Definition is_any (c : Constraint) : bool :=
  match c with any => true | _ => false end.

Definition is_none (c : Constraint) : bool :=
  match c with none => true | _ => false end.

(** Modelled from the spec: [Union] (missing from the sources) drops
    every [none] operand, collapses to [any] when an operand is [any],
    and is [none] for no operand. *)
Definition Union (cs : list Constraint) : Constraint :=
  if existsb is_any cs then any
  else match filter (fun c => negb (is_none c)) cs with
       | [] => none
       | l => unionConstraint l
       end.

(** Modelled from the spec: [Intersection] (missing from the sources)
    drops every [any] operand, collapses to [none] when an operand is
    [none], and is [any] for no operand. *)
Definition Intersection (cs : list Constraint) : Constraint :=
  if existsb is_none cs then none
  else match filter (fun c => negb (is_any c)) cs with
       | [] => any
       | l => intersectionConstraint l
       end.

End Algebra.
Export Algebra.

(** ** constraints.go *)

(** Go's [error] values as the source builds them: [fmt.Errorf] with its
    format and arguments (left unformatted), and [errors.New]. *)
Inductive arg : Type :=
| arg_string (s : string)
| arg_version (v : Version).

Inductive error : Type :=
| Errorf (format : string) (args : list arg)
| errors_New (text : string).

(** The keys of the maps [constraintOps] and [constraintMsg].  The clause
    regexp is assembled from these keys, so its first group is always one
    of them. *)
Inductive opkey : Type :=
| op_empty | op_eq | op_neq | op_gt | op_lt | op_ge | op_eg | op_le | op_el
| op_tilde | op_tildegt | op_caret.

Definition op_text (k : opkey) : string :=
  match k with
  | op_empty => ""
  | op_eq => "="
  | op_neq => "!="
  | op_gt => ">"
  | op_lt => "<"
  | op_ge => ">="
  | op_eg => "=>"
  | op_le => "<="
  | op_el => "=<"
  | op_tilde => "~"
  | op_tildegt => "~>"
  | op_caret => "^"
  end.

(** [ops], the keys in the order of the map literal.  Go ranges over a map
    in an unspecified order; the regexp is anchored at both ends and what
    follows an operator can start no operator, so at most one alternative
    leads to a match and the order does not show, as is
    proved below. *)
Definition ops : list opkey :=
  [op_empty; op_eq; op_neq; op_gt; op_lt; op_ge; op_eg; op_le; op_el;
   op_tilde; op_tildegt; op_caret].

(** The values of type [cfunc], by the name of the function. *)
Inductive cfunc : Type :=
| fn_constraintTildeOrEqual
| fn_constraintNotEqual
| fn_constraintGreaterThan
| fn_constraintLessThan
| fn_constraintGreaterThanEqual
| fn_constraintLessThanEqual
| fn_constraintTilde
| fn_constraintCaret.

Definition constraintOps (k : opkey) : cfunc :=
  match k with
  | op_empty => fn_constraintTildeOrEqual
  | op_eq => fn_constraintTildeOrEqual
  | op_neq => fn_constraintNotEqual
  | op_gt => fn_constraintGreaterThan
  | op_lt => fn_constraintLessThan
  | op_ge => fn_constraintGreaterThanEqual
  | op_eg => fn_constraintGreaterThanEqual
  | op_le => fn_constraintLessThanEqual
  | op_el => fn_constraintLessThanEqual
  | op_tilde => fn_constraintTilde
  | op_tildegt => fn_constraintTilde
  | op_caret => fn_constraintCaret
  end.

Definition constraintMsg (k : opkey) : string :=
  match k with
  | op_empty => "%s is not equal to %s"
  | op_eq => "%s is not equal to %s"
  | op_neq => "%s is equal to %s"
  | op_gt => "%s is less than or equal to %s"
  | op_lt => "%s is greater than or equal to %s"
  | op_ge => "%s is less than %s"
  | op_eg => "%s is less than %s"
  | op_le => "%s is greater than %s"
  | op_el => "%s is greater than %s"
  | op_tilde => "%s does not have same major and minor version as %s"
  | op_tildegt => "%s does not have same major and minor version as %s"
  | op_caret => "%s does not have same major version as %s"
  end.

(** An individual constraint. *)
Record constraint : Type := mkConstraint {
  function : cfunc;
  msg : string;
  con : Version;
  predicate : string;
  orig : string;
  minorDirty : bool;
  dirty : bool
}.

Definition constraintGroup : Type := list constraint.

(** [Constraints].  The slices hold pointers; [parseConstraint] allocates
    one [constraint] per clause and stores it in one slot, so no two slots
    alias and a write through a pointer is an update of that slot. *)
Record Constraints : Type := mkConstraints {
  constraints : list constraintGroup
}.

(** *** The clause regexp and the range regexp *)

(** The groups of [constraintRegex] that [parseConstraint] reads: [m[1]]
    to [m[6]]. *)
Record submatch : Type := mkSubmatch {
  m1 : opkey;
  m2 : string;
  m3 : string;
  m4 : string;
  m5 : string;
  m6 : string
}.

Module Patterns.
Import Regexp Grammar.

(** What follows the operator: optional blanks, [cvRegex], optional
    blanks. *)
Definition clause_tail (k : opkey) : M submatch :=
  _ <- star is_space ;;
  cv <- cvRegex ;;
  _ <- star is_space ;;
  ret (mkSubmatch k (cv_text cv) (cv_major cv) (cv_minor cv) (cv_patch cv)
         (cv_pre cv)).

(** Optional blanks, one of the operators, and the rest, for the
    alternation written in the order [order]; the caller anchors it at
    both ends. *)
Definition constraintRegex_in (order : list opkey) : M submatch :=
  _ <- star is_space ;;
  k <- alts (map (fun k => _ <- lit (op_text k) ;; ret k) order) ;;
  clause_tail k.

Definition constraintRegex : M submatch := constraintRegex_in ops.

(** The groups of [constraintRangeRegex] that [rewriteRange] reads:
    [v[0]], the whole match, and [v[1]] and [v[11]], the two versions. *)
Record rangeMatch : Type := mkRangeMatch {
  v0 : string;
  v1 : string;
  v11 : string
}.

(** Optional blanks, [cvRegex], optional blanks, a hyphen, optional
    blanks, [cvRegex], optional blanks; not anchored. *)
Definition constraintRangeRegex : M rangeMatch :=
  a <- star is_space ;;
  x <- cvRegex ;;
  b <- star is_space ;;
  h <- lit "-" ;;
  c <- star is_space ;;
  y <- cvRegex ;;
  d <- star is_space ;;
  ret (mkRangeMatch (a ++ cv_text x ++ b ++ h ++ c ++ cv_text y ++ d)
         (cv_text x) (cv_text y)).

(** [constraintRegex.FindStringSubmatch(c)]. *)
Definition FindStringSubmatch (c : string) : option submatch :=
  first_full (constraintRegex c).

(** [constraintRangeRegex.FindAllStringSubmatch(i, -1)]: the successive
    matches, each the first one at the leftmost position not before the
    end of the previous match.  [skip] counts the bytes of the last match
    still to be passed over; a match holds a hyphen, so it is never
    empty. *)
Fixpoint find_all (skip : nat) (s : string) : list rangeMatch :=
  match s with
  | EmptyString => []
  | String _ s' =>
      match skip with
      | S k => find_all k s'
      | O =>
          match constraintRangeRegex s with
          | (m, _) :: _ => m :: find_all (String.length (v0 m) - 1) s'
          | [] => find_all O s'
          end
      end
  end.

Definition FindAllStringSubmatch (i : string) : list rangeMatch :=
  find_all O i.

End Patterns.
Export Patterns.

Definition isX (x : string) : bool :=
  let l := GoStrings.ToLower x in
  (l =? "x") || (l =? "*").

Definition rewriteRange (i : string) : string :=
  fold_left
    (fun o v =>
       let t := ">= " ++ v1 v ++ ", <= " ++ v11 v in
       GoStrings.Replace1 o (v0 v) t)
    (FindAllStringSubmatch i) i.

(** *** The two clause parsers *)

Definition parseConstraint (c : string) : constraint + error :=
  match FindStringSubmatch c with
  | None => inr (Errorf "improper constraint: %s" [arg_string c])
  | Some m =>
      let orig := m2 m in
      let '(ver, minorDirty, dirty) :=
        if isX (m3 m) then ("0.0.0", false, true)
        else if isX (GoStrings.TrimPrefix (m4 m) ".")
        then (m3 m ++ ".0.0" ++ m6 m, true, true)
        else if isX (GoStrings.TrimPrefix (m5 m) ".")
        then (m3 m ++ m4 m ++ ".0" ++ m6 m, false, true)
        else (m2 m, false, false) in
      match NewVersion ver with
      | None => inr (errors_New "constraint Parser Error")
      | Some con =>
          inl {| function := constraintOps (m1 m);
                 msg := constraintMsg (m1 m);
                 predicate := op_text (m1 m);
                 con := con;
                 orig := orig;
                 minorDirty := minorDirty;
                 dirty := dirty |}
      end
  end.

Definition expandCaret (v : Version) : Constraint :=
  let maxv := {| major := major v + 1; minor := 0; patch := 0;
                 prerelease := ""; build := "" |} in
  range {| min := Some v; max := Some maxv;
           includeMin := true; includeMax := false; excl := [] |}.

Definition expandTilde (v : Version) (wildMinor : bool) : Constraint :=
  if wildMinor then expandCaret v
  else
    let maxv := {| major := major v; minor := minor v + 1; patch := 0;
                   prerelease := ""; build := "" |} in
    range {| min := Some v; max := Some maxv;
             includeMin := true; includeMax := false; excl := [] |}.

Definition expandNeq (v : Version) (wildMinor wildPatch : bool) : Constraint :=
  if negb (wildMinor || wildPatch)
  then range {| min := None; max := None;
                includeMin := false; includeMax := false; excl := [v] |}
  else
    let lr := range {| min := None; max := Some v;
                       includeMin := false; includeMax := false; excl := [] |} in
    let minv := {| major := major v; minor := minor v; patch := patch v;
                   prerelease := ""; build := "" |} in
    let minv :=
      if wildMinor
      then {| major := major minv + 1; minor := minor minv; patch := patch minv;
              prerelease := prerelease minv; build := build minv |}
      else {| major := major minv; minor := minor minv + 1; patch := patch minv;
              prerelease := prerelease minv; build := build minv |} in
    let hr := range {| min := Some minv; max := None;
                       includeMin := true; includeMax := false; excl := [] |} in
    Union [lr; hr].

Definition expandGreater (v : Version) (eq : bool) : Constraint :=
  range {| min := Some v; max := None;
           includeMin := eq; includeMax := false; excl := [] |}.

Definition expandLess (v : Version) (wildMinor wildPatch eq : bool) : Constraint :=
  let v2 := {| major := major v; minor := minor v; patch := patch v;
               prerelease := ""; build := "" |} in
  let v2 :=
    if wildMinor
    then {| major := major v2 + 1; minor := minor v2; patch := patch v2;
            prerelease := prerelease v2; build := build v2 |}
    else if wildPatch
    then {| major := major v2; minor := minor v2 + 1; patch := patch v2;
            prerelease := prerelease v2; build := build v2 |}
    else v2 in
  range {| min := None; max := Some v2;
           includeMin := false; includeMax := eq; excl := [] |}.

Definition parseConstraintNu (c : string) : Constraint + error :=
  match FindStringSubmatch c with
  | None => inr (Errorf "Malformed constraint: %s" [arg_string c])
  | Some m =>
      if isX (m3 m) then inl any
      else
        let '(ver, wildPatch, wildMinor) :=
          if isX (GoStrings.TrimPrefix (m4 m) ".")
          then (m3 m ++ ".0.0" ++ m6 m, true, true)
          else if isX (GoStrings.TrimPrefix (m5 m) ".")
          then (m3 m ++ m4 m ++ ".0" ++ m6 m, true, false)
          else (m2 m, false, false) in
        match NewVersion ver with
        | None => inr (errors_New "constraint Parser Error")
        | Some v =>
            match m1 m with
            | op_caret => inl (expandCaret v)
            | op_tilde => inl (expandTilde v wildMinor)
            | op_neq => inl (expandNeq v wildMinor wildPatch)
            | op_empty | op_eq =>
                if wildPatch || wildMinor then inl (expandTilde v wildMinor)
                else inl (exact v)
            | op_gt => inl (expandGreater v false)
            | op_ge | op_eg => inl (expandGreater v true)
            | op_lt => inl (expandLess v wildMinor wildPatch false)
            | op_le | op_el => inl (expandLess v wildMinor wildPatch true)
            | op_tildegt =>
                (* no case of the switch names this key: the default *)
                inr (Errorf "Unrecognized predicate %q" [arg_string (op_text (m1 m))])
            end
        end
  end.

(** *** The constraint functions *)

Definition constraintNotEqual (v : Version) (c : constraint) : bool :=
  if dirty c then
    if negb (Major (con c) =? Major v)%N then true
    else if negb (Minor (con c) =? Minor v)%N && negb (minorDirty c) then true
    else if minorDirty c then false
    else false
  else negb (Equal v (con c)).

Definition constraintGreaterThan (v : Version) (c : constraint) : bool :=
  (Compare v (con c) =? 1)%Z.

Definition constraintLessThan (v : Version) (c : constraint) : bool :=
  if negb (dirty c) then (Compare v (con c) <? 0)%Z
  else if (Major (con c) <? Major v)%N then false
  else if (Minor (con c) <? Minor v)%N && negb (minorDirty c) then false
  else true.

Definition constraintGreaterThanEqual (v : Version) (c : constraint) : bool :=
  (Compare v (con c) >=? 0)%Z.

Definition constraintLessThanEqual (v : Version) (c : constraint) : bool :=
  if negb (dirty c) then (Compare v (con c) <=? 0)%Z
  else if (Major (con c) <? Major v)%N then false
  else if (Minor (con c) <? Minor v)%N && negb (minorDirty c) then false
  else true.

Definition constraintTilde (v : Version) (c : constraint) : bool :=
  if LessThan v (con c) then false
  else if (Major (con c) =? 0)%N && (Minor (con c) =? 0)%N
          && (Patch (con c) =? 0)%N then true
  else if negb (Major v =? Major (con c))%N then false
  else if negb (Minor v =? Minor (con c))%N && negb (minorDirty c) then false
  else true.

(** The assignment [c.msg = constraintMsg["~"]]. *)
Definition set_msg (c : constraint) (s : string) : constraint :=
  {| function := function c; msg := s; con := con c;
     predicate := predicate c; orig := orig c;
     minorDirty := minorDirty c; dirty := dirty c |}.

(** The one constraint function that writes through [c]: it returns its
    result and the constraint as it leaves it. *)
Definition constraintTildeOrEqual (v : Version) (c : constraint)
  : bool * constraint :=
  if dirty c then
    let c := set_msg c (constraintMsg op_tilde) in
    (constraintTilde v c, c)
  else (Equal v (con c), c).

Definition constraintCaret (v : Version) (c : constraint) : bool :=
  if LessThan v (con c) then false
  else if negb (Major v =? Major (con c))%N then false
  else true.

(** A call through a [cfunc] value. *)
Definition call (f : cfunc) (v : Version) (c : constraint) : bool * constraint :=
  match f with
  | fn_constraintTildeOrEqual => constraintTildeOrEqual v c
  | fn_constraintNotEqual => (constraintNotEqual v c, c)
  | fn_constraintGreaterThan => (constraintGreaterThan v c, c)
  | fn_constraintLessThan => (constraintLessThan v c, c)
  | fn_constraintGreaterThanEqual => (constraintGreaterThanEqual v c, c)
  | fn_constraintLessThanEqual => (constraintLessThanEqual v c, c)
  | fn_constraintTilde => (constraintTilde v c, c)
  | fn_constraintCaret => (constraintCaret v c, c)
  end.

(** [c.check(v)]: the result and the constraint afterwards. *)
Definition check (c : constraint) (v : Version) : bool * constraint :=
  call (function c) v c.

(** *** Construction *)

(** The loops of [NewConstraint] and [NewConstraintNu]: fill the result
    slot by slot and return the first error met. *)
Fixpoint for_each {A B : Type} (f : A -> B + error) (l : list A)
  : list B + error :=
  match l with
  | [] => inl []
  | a :: l' =>
      match f a with
      | inr err => inr err
      | inl b =>
          match for_each f l' with
          | inr err => inr err
          | inl bs => inl (b :: bs)
          end
      end
  end.

(** The clause texts of a constraint text, group by group: what is left
    of it after [rewriteRange], split at the double bar, each part split
    at the comma. *)
Definition clauses (c : string) : list (list string) :=
  map (fun v => GoStrings.Split v ",") (GoStrings.Split (rewriteRange c) "||").

Definition NewConstraint (c : string) : Constraints + error :=
  let c := rewriteRange c in
  let ors := GoStrings.Split c "||" in
  match for_each (fun v => for_each parseConstraint (GoStrings.Split v ",")) ors with
  | inr err => inr err
  | inl or => inl {| constraints := or |}
  end.

Definition NewConstraintNu (c : string) : Constraint + error :=
  let c := rewriteRange c in
  let ors := GoStrings.Split c "||" in
  match
    for_each
      (fun v =>
         match for_each parseConstraintNu (GoStrings.Split v ",") with
         | inr err => inr err
         | inl result => inl (Intersection result)
         end) ors
  with
  | inr err => inr err
  | inl or => inl (Union or)
  end.

(** *** Evaluation

    Each function returns its Go result together with the constraints as
    the call leaves them. *)

(** The inner loop of [Check]: [joy], with the [break] at the first
    clause that fails. *)
Fixpoint check_group (v : Version) (o : constraintGroup)
  : bool * constraintGroup :=
  match o with
  | [] => (true, [])
  | c :: o' =>
      let (ok, c') := check c v in
      if ok
      then let (joy, o'') := check_group v o' in (joy, c' :: o'')
      else (false, c' :: o')
  end.

Fixpoint check_groups (v : Version) (gs : list constraintGroup)
  : bool * list constraintGroup :=
  match gs with
  | [] => (false, [])
  | o :: gs' =>
      let (joy, o') := check_group v o in
      if joy then (true, o' :: gs')
      else let (r, gs'') := check_groups v gs' in (r, o' :: gs'')
  end.

Definition Check (cs : Constraints) (v : Version) : bool * Constraints :=
  let (r, gs) := check_groups v (constraints cs) in
  (r, {| constraints := gs |}).

(** The inner loop of [Validate]: every clause is checked, and each
    failure appends [fmt.Errorf(c.msg, v, c.orig)] to [e], with the
    message the clause holds after its check. *)
Fixpoint validate_group (v : Version) (o : constraintGroup) (e : list error)
  : bool * list error * constraintGroup :=
  match o with
  | [] => (true, e, [])
  | c :: o' =>
      let (ok, c') := check c v in
      if ok
      then let '(joy, e', o'') := validate_group v o' e in (joy, e', c' :: o'')
      else
        let em := Errorf (msg c') [arg_version v; arg_string (orig c')] in
        let '(_, e', o'') := validate_group v o' (e ++ [em])%list in
        (false, e', c' :: o'')
  end.

Fixpoint validate_groups (v : Version) (gs : list constraintGroup)
  (e : list error) : bool * list error * list constraintGroup :=
  match gs with
  | [] => (false, e, [])
  | o :: gs' =>
      let '(joy, e', o') := validate_group v o e in
      if joy then (true, [], o' :: gs')
      else
        let '(r, e'', gs'') := validate_groups v gs' e' in
        (r, e'', o' :: gs'')
  end.

Definition Validate (cs : Constraints) (v : Version)
  : bool * list error * Constraints :=
  let '(r, e, gs) := validate_groups v (constraints cs) [] in
  (r, e, {| constraints := gs |}).

(** ** Vocabulary of the statements *)

(** The reason [Validate] records for a clause that fails on [v]. *)
Definition reason (v : Version) (c : constraint) : error :=
  let c' := snd (check c v) in
  Errorf (msg c') [arg_version v; arg_string (orig c')].

(** The reasons of one group: one per failing clause, in order. *)
Definition failures (v : Version) (o : constraintGroup) : list error :=
  map (reason v) (filter (fun c => negb (fst (check c v))) o).

(** All clauses of the group hold, and some group has all its clauses
    hold. *)
Definition group_holds (v : Version) (o : constraintGroup) : bool :=
  forallb (fun c => fst (check c v)) o.

Definition some_group_holds (v : Version) (gs : list constraintGroup) : bool :=
  existsb (group_holds v) gs.

(** What a call may do to the clause it is given: nothing, or, for a
    clause with a wildcard under [constraintTildeOrEqual], the assignment
    of the tilde message. *)
Definition frame (c c' : constraint) : Prop :=
  c' = c \/
  (function c = fn_constraintTildeOrEqual /\ dirty c = true /\
   c' = set_msg c (constraintMsg op_tilde)).

(** The half-open range from [lo] (included) to [hi] (excluded). *)
Definition within (lo hi w : Version) : Prop :=
  (Compare w lo >= 0)%Z /\ (Compare w hi < 0)%Z.

(** The three numbers of the version are zero. *)
Definition zero_numbers (a : Version) : bool :=
  (major a =? 0)%N && (minor a =? 0)%N && (patch a =? 0)%N.

(** The version with the numbers of [v], the major bumped when the minor
    is a wildcard and the minor bumped otherwise. *)
Definition bumped (v : Version) (wildMinor : bool) : Version :=
  if wildMinor then release (major v + 1) (minor v) (patch v)
  else release (major v) (minor v + 1) (patch v).

(** The result of [Check] on the constraints built from a text by
    [NewConstraint], and of [Satisfies] on the constraint built by
    [NewConstraintNu]; [None] when the construction fails. *)
Definition check_text (t : string) (v : Version) : option bool :=
  match NewConstraint t with
  | inl cs => Some (fst (Check cs v))
  | inr _ => None
  end.

Definition satisfies_text (t : string) (v : Version) : option bool :=
  match NewConstraintNu t with
  | inl k => Some (Satisfies k v)
  | inr _ => None
  end.

(** The numbers of [w] are below those of [a], lexicographically. *)
Definition below (w a : Version) : Prop :=
  (major w < major a)%N \/
  (major w = major a /\
   ((minor w < minor a)%N \/
    (minor w = minor a /\ (patch w < patch a)%N))).

(** The positions of the anchor that stand for a wildcard hold 0, as
    [parseConstraint] fills them. *)
Definition zero_filled (c : constraint) : bool :=
  if dirty c
  then (patch (con c) =? 0)%N
       && (if minorDirty c then (minor (con c) =? 0)%N else true)
  else true.


(** The clause of the text [~1.2.3], and the clause of the text [!=1.2.x],
    as [parseConstraint] builds them. *)
Definition tilde_1_2_3 : constraint :=
  {| function := fn_constraintTilde; msg := constraintMsg op_tilde;
     con := release 1 2 3; predicate := "~"; orig := "1.2.3";
     minorDirty := false; dirty := false |}.

Definition neq_1_2_x : constraint :=
  {| function := fn_constraintNotEqual; msg := constraintMsg op_neq;
     con := release 1 2 0; predicate := "!="; orig := "1.2.x";
     minorDirty := false; dirty := true |}.

(** The first of the values [f x] that is defined, for [x] along [l]. *)
Fixpoint first_some {A B : Type} (f : A -> option B) (l : list A) : option B :=
  match l with
  | [] => None
  | x :: l' => match f x with Some b => Some b | None => first_some f l' end
  end.

(** What a clause tail can start with: a blank, a [v] or a component
    byte. *)
Definition starts_tail (t : string) : bool :=
  match t with
  | String c _ =>
      Regexp.is_space c || Ascii.eqb c "v" || Grammar.is_cv c
  | EmptyString => false
  end.

(** The alternative of one operator, with what follows it. *)
Definition branch (k : opkey) : Regexp.M submatch :=
  Regexp.bind (Regexp.lit (op_text k)) (fun _ => clause_tail k).


(** A pattern is exact for [text] when every match of it leaves the input
    as the text of the match followed by the rest, and does not depend on
    the rest. *)
Definition exact_by {A : Type} (text : A -> string) (p : Regexp.M A) : Prop :=
  forall s a r,
    In (a, r) (p s) ->
    s = text a ++ r /\ forall r', In (a, r') (p (text a ++ r')).

(** The same for a pattern that returns its text. *)
Definition exact (p : Regexp.M string) : Prop := exact_by (fun t => t) p.

(** The byte [c] occurs in [s]. *)
Fixpoint holds (c : ascii) (s : string) : bool :=
  match s with
  | EmptyString => false
  | String b s' => Ascii.eqb b c || holds c s'
  end.

(** The clause of the text [<1.x], as [parseConstraint] builds it. *)
Definition lt_1_x : constraint :=
  {| function := fn_constraintLessThan; msg := constraintMsg op_lt;
     con := release 1 0 0; predicate := "<"; orig := "1.x";
     minorDirty := true; dirty := true |}.

(** The bytes that start the parts of a version text after the major:
    the dot, the hyphen and the plus sign. *)
Definition is_sep (c : ascii) : bool :=
  Ascii.eqb c "." || Ascii.eqb c "-" || Ascii.eqb c "+".

(** The text is empty or starts with a separator. *)
Definition sep_head (r : string) : bool :=
  match r with
  | EmptyString => true
  | String c _ => is_sep c
  end.

(** No byte of the text is a separator. *)
Definition no_sep (x : string) : bool :=
  all_bytes (fun c => negb (is_sep c)) x.

(** The two versions have the same three numbers. *)
Definition same_numbers (w a : Version) : bool :=
  (major w =? major a)%N && (minor w =? minor a)%N && (patch w =? patch a)%N.

(** [w] has the numbers of [hi] and a prerelease tag: it is just below
    the version [hi] made of numbers only. *)
Definition prerelease_of (hi w : Version) : bool :=
  same_numbers w hi && negb (prerelease w =? "").

(** The caret function. *)
Definition is_caret (f : cfunc) : bool :=
  match f with fn_constraintCaret => true | _ => false end.

(** The upper bound that the spec gives to the range of a clause: the
    next major for a caret clause and for a clause whose minor is a
    wildcard, the next minor otherwise. *)
Definition upper (c : constraint) : Version :=
  if is_caret (function c) || minorDirty c
  then release (major (con c) + 1) 0 0
  else release (major (con c)) (minor (con c) + 1) 0.

(** The major component of the clause text is a wildcard. *)
Definition major_wild (s : string) : bool :=
  match FindStringSubmatch s with
  | Some m => isX (m3 m)
  | None => false
  end.

(** Where a tilde clause and its range differ. *)
Definition tilde_odds (c : constraint) (w : Version) : bool :=
  if zero_numbers (con c) then negb (LessThan w (upper c))
  else prerelease_of (upper c) w.

(** The versions at which the legacy clause [c] and the constraint that
    [parseConstraintNu] builds from the same text differ; [wild] says
    that the major of the clause is a wildcard. *)
Definition at_odds (wild : bool) (c : constraint) (w : Version) : bool :=
  if wild then negb (fst (check c w))
  else
    match function c with
    | fn_constraintGreaterThan | fn_constraintGreaterThanEqual => false
    | fn_constraintCaret => prerelease_of (upper c) w
    | fn_constraintTilde => tilde_odds c w
    | fn_constraintTildeOrEqual => dirty c && tilde_odds c w
    | fn_constraintNotEqual =>
        dirty c
        && (prerelease_of (upper c) w
            || (same_numbers w (con c) && LessThan w (con c)))
    | fn_constraintLessThan =>
        if dirty c then
          if minorDirty c then prerelease_of (upper c) w
          else (minor (con c) <? minor w)%N && LessThan w (upper c)
        else same_numbers w (con c) && negb (prerelease w =? "")
             && negb (LessThan w (con c))
    | fn_constraintLessThanEqual =>
        if dirty c then
          if minorDirty c then same_numbers w (upper c)
          else (minor (con c) <? minor w)%N && negb (GreaterThan w (upper c))
        else same_numbers w (con c) && GreaterThan w (con c)
    end.

(** The same for a clause text. *)
Definition odds_text (s : string) (w : Version) : bool :=
  match parseConstraint s with
  | inl c => at_odds (major_wild s) c w
  | inr _ => false
  end.

(** * Properties *)

(** ** The clause regexp and the order of its alternation

    [init] joins the operators in the order in which Go ranges over the
    map, which is not specified.  Whatever that order, the match is the
    same. *)

Import Regexp Grammar.

Lemma first_full_app {A : Type} (l1 l2 : list (A * string)) :
  first_full (l1 ++ l2) =
  match first_full l1 with Some a => Some a | None => first_full l2 end.
Proof.
  induction l1 as [|[a r] l1 IH]; simpl; [reflexivity|].
  destruct r; [reflexivity|exact IH].
Qed.

Lemma first_full_flat_map {A B : Type} (F : A -> list (B * string)) (l : list A) :
  first_full (flat_map F l) = first_some (fun x => first_full (F x)) l.
Proof.
  induction l as [|x l IH]; simpl; [reflexivity|].
  rewrite first_full_app, IH. reflexivity.
Qed.

Lemma first_full_In {A : Type} (l : list (A * string)) (a : A) :
  first_full l = Some a -> In (a, EmptyString) l.
Proof.
  induction l as [|[b r] l IH]; simpl; [discriminate|].
  destruct r; intros H; [injection H as ->; now left | right; auto].
Qed.

Lemma first_some_ext {A B : Type} (f g : A -> option B) (l : list A) :
  (forall x, f x = g x) -> first_some f l = first_some g l.
Proof.
  intros H. induction l as [|x l IH]; simpl; [reflexivity|].
  now rewrite H, IH.
Qed.

(** When at most one element has a value, the order does not matter. *)
Lemma first_some_Permutation {A B : Type} (f : A -> option B) (l l' : list A) :
  (forall x y, f x <> None -> f y <> None -> x = y) ->
  Permutation l l' -> first_some f l = first_some f l'.
Proof.
  intros Hu Hp. induction Hp as [|x l l' _ IH|x y l|l l' l'' _ IH1 _ IH2]; simpl.
  - reflexivity.
  - now rewrite IH.
  - destruct (f y) eqn:Ey, (f x) eqn:Ex; try reflexivity.
    assert (x = y) by (apply Hu; congruence). subst. congruence.
  - congruence.
Qed.

Lemma HasPrefix_cons (b : ascii) (t : string) (a : ascii) (p : string) :
  GoStrings.HasPrefix (String b t) (String a p) = true ->
  a = b /\ GoStrings.HasPrefix t p = true.
Proof.
  unfold GoStrings.HasPrefix. simpl.
  destruct (ascii_dec a b); [auto|discriminate].
Qed.

Lemma HasPrefix_nonempty (t : string) (a : ascii) (p : string) :
  GoStrings.HasPrefix t (String a p) = true ->
  exists t', t = String a t' /\ GoStrings.HasPrefix t' p = true.
Proof.
  destruct t as [|b t]; [discriminate|].
  intros H. apply HasPrefix_cons in H. destruct H as [-> H]. eauto.
Qed.

(** Read a known prefix off the text. *)
Ltac prefix_inv :=
  repeat match goal with
    | H : GoStrings.HasPrefix _ EmptyString = true |- _ => clear H
    | H : GoStrings.HasPrefix (String _ _) (String _ _) = true |- _ =>
        apply HasPrefix_cons in H; destruct H as [? H]
    | H : GoStrings.HasPrefix ?t (String _ _) = true |- _ =>
        apply HasPrefix_nonempty in H; destruct H as [? [? H]]; subst t
    end.

Lemma star_head (cls : ascii -> bool) (t : string) (ws t' : string) :
  In (ws, t') (star cls t) ->
  (ws = EmptyString /\ t' = t) \/
  (exists c rest, t = String c rest /\ cls c = true).
Proof.
  destruct t as [|c t]; simpl.
  - intros [H|[]]. injection H as <- <-. now left.
  - destruct (cls c) eqn:Ec.
    + intros _. right. eauto.
    + intros [H|[]]. injection H as <- <-. now left.
Qed.

Lemma in_bind {A B : Type} (m : M A) (f : A -> M B) (s : string) (r : B * string) :
  In r (bind m f s) <-> exists a s', In (a, s') (m s) /\ In r (f a s').
Proof.
  unfold bind. rewrite in_flat_map. split.
  - intros [[a s'] [H1 H2]]. exists a, s'. auto.
  - intros [a [s' [H1 H2]]]. exists (a, s'). auto.
Qed.

Lemma chr_head (cls : ascii -> bool) (t : string) (r : string * string) :
  In r (chr cls t) -> exists c rest, t = String c rest /\ cls c = true.
Proof.
  unfold chr. destruct t as [|c t]; [intros []|].
  destruct (cls c) eqn:Ec; [|intros []]. eauto.
Qed.

Lemma cvRegex_head (t : string) (r : cvMatch * string) :
  In r (cvRegex t) -> starts_tail t = true.
Proof.
  unfold cvRegex, version_pattern. intros H.
  apply in_bind in H. destruct H as [v [t1 [Hv H]]].
  apply in_bind in H. destruct H as [ma [t2 [Hma _]]].
  unfold plus in Hma. apply in_bind in Hma. destruct Hma as [c [t3 [Hc _]]].
  apply chr_head in Hc. destruct Hc as [c1 [rest [-> Hc1]]].
  unfold opt, alt, ret, lit in Hv. apply in_app_or in Hv.
  destruct Hv as [Hv|[Hv|[]]].
  - destruct (GoStrings.HasPrefix t "v") eqn:Ep; [|destruct Hv].
    prefix_inv. reflexivity.
  - injection Hv as _ ->. simpl. rewrite Hc1. now rewrite orb_true_r.
Qed.

Lemma clause_tail_head (k : opkey) (t : string) (r : submatch * string) :
  In r (clause_tail k t) -> starts_tail t = true.
Proof.
  unfold clause_tail. intros H.
  apply in_bind in H. destruct H as [ws [t' [Hws H]]].
  apply in_bind in H. destruct H as [cv [t'' [Hcv _]]].
  apply star_head in Hws. destruct Hws as [[-> ->]|[c [rest [-> Hc]]]].
  - now apply cvRegex_head in Hcv.
  - simpl. now rewrite Hc.
Qed.

Lemma branch_head (k : opkey) (t : string) (r : submatch * string) :
  In r (branch k t) ->
  GoStrings.HasPrefix t (op_text k) = true /\
  starts_tail (GoStrings.drop (String.length (op_text k)) t) = true.
Proof.
  unfold branch. intros H.
  apply in_bind in H. destruct H as [o [t' [Ho H]]].
  unfold lit in Ho.
  destruct (GoStrings.HasPrefix t (op_text k)); [|destruct Ho].
  destruct Ho as [Ho|[]]. injection Ho as _ <-.
  split; [reflexivity|]. eapply clause_tail_head; eauto.
Qed.

Lemma branch_unique (t : string) (k1 k2 : opkey) :
  first_full (branch k1 t) <> None -> first_full (branch k2 t) <> None ->
  k1 = k2.
Proof.
  intros H1 H2.
  destruct (first_full (branch k1 t)) as [r1|] eqn:E1; [|congruence].
  destruct (first_full (branch k2 t)) as [r2|] eqn:E2; [|congruence].
  apply first_full_In, branch_head in E1.
  apply first_full_In, branch_head in E2.
  clear H1 H2 r1 r2. destruct E1 as [P1 S1], E2 as [P2 S2].
  destruct k1, k2; try reflexivity; exfalso;
    cbn [op_text] in *; prefix_inv;
    cbn [String.length GoStrings.drop] in *;
    try discriminate; vm_compute in S1, S2; discriminate.
Qed.

Lemma bind_alts {A B : Type} (ms : list (M A)) (f : A -> M B) (s : string) :
  bind (alts ms) f s = flat_map (fun m => bind m f s) ms.
Proof.
  unfold bind, alts. induction ms as [|m ms IH]; simpl; [reflexivity|].
  now rewrite flat_map_app, IH.
Qed.

Lemma constraintRegex_in_branches (order : list opkey) (c : string) :
  constraintRegex_in order c =
  flat_map (fun wt => flat_map (fun k => branch k (snd wt)) order)
    (star is_space c).
Proof.
  unfold constraintRegex_in. unfold bind at 1. apply flat_map_ext.
  intros [ws t]. simpl. rewrite bind_alts.
  rewrite flat_map_concat_map, map_map, <- flat_map_concat_map.
  apply flat_map_ext. intros k. unfold branch, bind, lit, ret.
  destruct (GoStrings.HasPrefix t (op_text k)); reflexivity.
Qed.

(** X1.  [init] joins the operators into the alternation of the clause
    regexp in the order in which Go ranges over the map.  In whatever
    order they are joined, the regexp finds the same match on every
    clause text. *)
Theorem FindStringSubmatch_any_order (order : list opkey) (c : string) :
  Permutation order ops ->
  first_full (constraintRegex_in order c) = FindStringSubmatch c.
Proof.
  intros Hp. unfold FindStringSubmatch, constraintRegex.
  rewrite !constraintRegex_in_branches, !first_full_flat_map.
  apply first_some_ext. intros [ws t]. cbn [snd].
  rewrite !first_full_flat_map.
  apply first_some_Permutation; [|exact Hp].
  intros k1 k2. apply branch_unique.
Qed.

Lemma FindStringSubmatch_any_order_witness :
  Permutation (rev ops) ops /\
  first_full (constraintRegex_in (rev ops) ">=1.2.3")
  = FindStringSubmatch ">=1.2.3".
Proof.
  split; [apply Permutation_sym, Permutation_rev|].
  apply FindStringSubmatch_any_order. apply Permutation_sym, Permutation_rev.
Defined.

(** ** Evaluation of a group and of the groups *)

Lemma for_each_Forall2 {A B : Type} (f : A -> B + error) (l : list A) :
  forall bs, for_each f l = inl bs -> Forall2 (fun a b => f a = inl b) l bs.
Proof.
  induction l as [|a l IH]; simpl; intros bs H.
  - injection H as <-. constructor.
  - destruct (f a) as [b|err] eqn:Ea; [|discriminate].
    destruct (for_each f l) as [bs'|err] eqn:El; [|discriminate].
    injection H as <-. constructor; auto.
Qed.

(** The first element that [f] rejects decides the error of the loop. *)
Lemma for_each_first_error {A B : Type} (f : A -> B + error)
  (l1 : list A) (a : A) (l2 : list A) (err : error) :
  (forall x, In x l1 -> exists b, f x = inl b) ->
  f a = inr err ->
  for_each f (l1 ++ a :: l2) = inr err.
Proof.
  induction l1 as [|x l1 IH]; simpl; intros Hok Ha.
  - now rewrite Ha.
  - destruct (Hok x (or_introl eq_refl)) as [b ->].
    rewrite IH; auto.
Qed.

(** An element that [f] rejects makes the loop fail. *)
Lemma for_each_error {A B : Type} (f : A -> B + error) (l : list A) (a : A) :
  In a l -> (exists err, f a = inr err) -> exists err, for_each f l = inr err.
Proof.
  induction l as [|x l IH]; simpl; intros Hin Ha; [contradiction|].
  destruct (f x) as [b|e] eqn:Ex; [|eauto].
  destruct Hin as [->|Hin].
  - destruct Ha as [err Ha]. congruence.
  - destruct (IH Hin Ha) as [err ->]. eauto.
Qed.

Lemma check_group_fst (v : Version) (o : constraintGroup) :
  fst (check_group v o) = group_holds v o.
Proof.
  induction o as [|c o IH]; simpl; [reflexivity|].
  destruct (check c v) as [ok c']; simpl.
  destruct ok; simpl; [|reflexivity].
  destruct (check_group v o) as [joy o'']; simpl in *. assumption.
Qed.

Lemma check_groups_fst (v : Version) (gs : list constraintGroup) :
  fst (check_groups v gs) = some_group_holds v gs.
Proof.
  induction gs as [|o gs IH]; simpl; [reflexivity|].
  rewrite <- check_group_fst.
  destruct (check_group v o) as [joy o']; simpl.
  destruct joy; simpl; [reflexivity|].
  destruct (check_groups v gs) as [r gs'']; simpl in *. assumption.
Qed.

Lemma Check_fst (cs : Constraints) (v : Version) :
  fst (Check cs v) = some_group_holds v (constraints cs).
Proof.
  unfold Check. rewrite <- check_groups_fst.
  destruct (check_groups v (constraints cs)); reflexivity.
Qed.

Lemma some_group_holds_iff (v : Version) (gs : list constraintGroup) :
  some_group_holds v gs = true <->
  exists o, In o gs /\ forall c, In c o -> fst (check c v) = true.
Proof.
  unfold some_group_holds, group_holds. rewrite existsb_exists.
  split; intros [o [Hin H]]; exists o; split; auto.
  - rewrite forallb_forall in H. exact H.
  - rewrite forallb_forall. exact H.
Qed.

Lemma validate_group_spec (v : Version) (o : constraintGroup) :
  forall e,
    fst (validate_group v o e) = (group_holds v o, (e ++ failures v o)%list).
Proof.
  induction o as [|c o IH]; intros e; simpl.
  - now rewrite app_nil_r.
  - unfold failures, reason; simpl.
    destruct (check c v) as [ok c'] eqn:Ec; simpl.
    destruct ok; simpl.
    + specialize (IH e). destruct (validate_group v o e) as [[joy e'] o''].
      simpl in *. exact IH.
    + specialize (IH (e ++ [Errorf (msg c') [arg_version v; arg_string (orig c')]])%list).
      destruct (validate_group v o _) as [[joy e'] o'']. simpl in *.
      injection IH as _ ->. rewrite Ec; simpl.
      now rewrite <- app_assoc.
Qed.

Lemma validate_groups_spec (v : Version) (gs : list constraintGroup) :
  forall e,
    fst (validate_groups v gs e) =
    if some_group_holds v gs then (true, [])
    else (false, (e ++ flat_map (failures v) gs)%list).
Proof.
  induction gs as [|o gs IH]; intros e; simpl.
  - now rewrite app_nil_r.
  - pose proof (validate_group_spec v o e) as Ho.
    destruct (validate_group v o e) as [[joy e'] o']. simpl in Ho.
    injection Ho as -> ->.
    destruct (group_holds v o); simpl; [reflexivity|].
    specialize (IH (e ++ failures v o)%list).
    destruct (validate_groups v gs _) as [[r e''] gs'']. simpl in *.
    rewrite IH. destruct (some_group_holds v gs); [reflexivity|].
    now rewrite <- app_assoc.
Qed.

(** ** What evaluation writes *)

Lemma check_frame (c : constraint) (v : Version) : frame c (snd (check c v)).
Proof.
  unfold check, call, constraintTildeOrEqual, frame.
  destruct (function c) eqn:Ef; simpl; auto.
  destruct (dirty c) eqn:Ed; simpl; auto.
Qed.

Lemma check_group_frame (v : Version) (o : constraintGroup) :
  Forall2 frame o (snd (check_group v o)).
Proof.
  assert (Hrefl : forall l, Forall2 frame l l)
    by (induction l; constructor; [left; reflexivity | assumption]).
  induction o as [|c o IH]; simpl; [constructor|].
  pose proof (check_frame c v) as Hc.
  destruct (check c v) as [ok c']; simpl in Hc.
  destruct ok.
  - destruct (check_group v o) as [joy o'']; simpl in *. constructor; auto.
  - simpl. constructor; auto.
Qed.

Lemma check_groups_frame (v : Version) (gs : list constraintGroup) :
  Forall2 (Forall2 frame) gs (snd (check_groups v gs)).
Proof.
  assert (Hrefl : forall l, Forall2 frame l l)
    by (induction l; constructor; [left; reflexivity | assumption]).
  assert (Hrefl2 : forall l, Forall2 (Forall2 frame) l l)
    by (induction l; constructor; auto).
  induction gs as [|o gs IH]; simpl; [constructor|].
  pose proof (check_group_frame v o) as Ho.
  destruct (check_group v o) as [joy o']; simpl in Ho.
  destruct joy.
  - simpl. constructor; auto.
  - destruct (check_groups v gs) as [r gs'']; simpl in *. constructor; auto.
Qed.

Lemma validate_group_frame (v : Version) (o : constraintGroup) :
  forall e, Forall2 frame o (snd (validate_group v o e)).
Proof.
  induction o as [|c o IH]; intros e; simpl; [constructor|].
  pose proof (check_frame c v) as Hc.
  destruct (check c v) as [ok c']; simpl in Hc.
  destruct ok.
  - specialize (IH e). destruct (validate_group v o e) as [[joy e'] o''].
    simpl in *. constructor; auto.
  - match goal with |- context [validate_group v o ?e1] =>
      specialize (IH e1); destruct (validate_group v o e1) as [[joy e'] o'']
    end.
    simpl in *. constructor; auto.
Qed.

Lemma validate_groups_frame (v : Version) (gs : list constraintGroup) :
  forall e, Forall2 (Forall2 frame) gs (snd (validate_groups v gs e)).
Proof.
  assert (Hrefl : forall l, Forall2 frame l l)
    by (induction l; constructor; [left; reflexivity | assumption]).
  assert (Hrefl2 : forall l, Forall2 (Forall2 frame) l l)
    by (induction l; constructor; auto).
  induction gs as [|o gs IH]; intros e; simpl; [constructor|].
  pose proof (validate_group_frame v o e) as Ho.
  destruct (validate_group v o e) as [[joy e'] o']; simpl in Ho.
  destruct joy.
  - simpl. constructor; auto.
  - specialize (IH e'). destruct (validate_groups v gs e') as [[r e''] gs''].
    simpl in *. constructor; auto.
Qed.

(** ** Claims about [Check] and [Validate] *)

(** C1.  For a constraints value built by [NewConstraint], the groups are
    the parts of the text between double bars and the clauses of a group
    its comma-separated parts, each parsed by [parseConstraint]; and
    [Check] answers true exactly when some group has all its clauses hold
    for the version: the disjunction over the groups of the conjunction
    over the clauses of the group. *)
Theorem Check_or_of_and (text : string) (cs : Constraints) (v : Version) :
  NewConstraint text = inl cs ->
  Forall2 (Forall2 (fun s c => parseConstraint s = inl c))
    (clauses text) (constraints cs)
  /\ (fst (Check cs v) = true <->
      exists o, In o (constraints cs) /\
                forall c, In c o -> fst (check c v) = true).
Proof.
  intros H. split.
  - unfold NewConstraint in H. unfold clauses.
    destruct (for_each _ _) as [or|err] eqn:E; [|discriminate].
    injection H as <-. simpl.
    apply for_each_Forall2 in E.
    induction E as [|s o ss gs Hs _ IH]; simpl; constructor; auto.
    now apply for_each_Forall2.
  - rewrite Check_fst. apply some_group_holds_iff.
Qed.

Lemma Check_or_of_and_witness :
  exists cs,
    NewConstraint "1.2.3 || 2.x, !=2.1.0" = inl cs /\
    (Forall2 (Forall2 (fun s c => parseConstraint s = inl c))
       (clauses "1.2.3 || 2.x, !=2.1.0") (constraints cs)
     /\ (fst (Check cs (release 2 5 0)) = true <->
         exists o, In o (constraints cs) /\
                   forall c, In c o -> fst (check c (release 2 5 0)) = true)).
Proof.
  eexists. split.
  - vm_compute. reflexivity.
  - apply Check_or_of_and. vm_compute. reflexivity.
Defined.

(** C8.  [Validate] returns the boolean of [Check]; it returns true with
    no reason exactly when some group has all its clauses hold, and
    otherwise false with one reason for each failing clause of each
    group, every clause of every group being looked at; the reason is the
    message of the clause with the version and the original text of the
    clause as its arguments.  [Validate] is a total function. *)
Theorem Validate_reasons (cs : Constraints) (v : Version) :
  fst (fst (Validate cs v)) = fst (Check cs v)
  /\ fst (Validate cs v) =
     if some_group_holds v (constraints cs) then (true, [])
     else (false, flat_map (failures v) (constraints cs)).
Proof.
  assert (H : fst (Validate cs v) =
              if some_group_holds v (constraints cs) then (true, [])
              else (false, flat_map (failures v) (constraints cs))).
  { unfold Validate.
    pose proof (validate_groups_spec v (constraints cs) []) as Hs.
    destruct (validate_groups v (constraints cs) []) as [[r e] gs].
    simpl in *. exact Hs. }
  split; [|exact H].
  rewrite H, Check_fst. now destruct (some_group_holds v (constraints cs)).
Qed.



(** ** The order of versions *)

Lemma Compare_cases (v o : Version) :
  (Compare v o = -1 \/ Compare v o = 0 \/ Compare v o = 1)%Z.
Proof. unfold Compare. destruct (compare v o); auto. Qed.

(** A version without prerelease tag is not below the same numbers with
    any tag. *)
Lemma comparePrerelease_release (p : string) :
  comparePrerelease "" p = Eq \/ comparePrerelease "" p = Gt.
Proof. destruct p; simpl; auto. Qed.

(** Case analysis on every comparison of numbers in sight. *)
Ltac split_numbers :=
  repeat match goal with
    | |- context [N.compare ?x ?y] => destruct (N.compare_spec x y)
    | |- context [N.eqb ?x ?y] => destruct (N.eqb_spec x y)
    | |- context [N.ltb ?x ?y] => destruct (N.ltb_spec x y)
    end.

(** Case analysis on every [Compare] in sight. *)
Ltac split_Compare :=
  repeat match goal with
    | |- context [Compare ?a ?b] =>
        let H := fresh "HC" in
        destruct (Compare_cases a b) as [H|[H|H]]; rewrite !H
    end.


(** ** The range algebra *)

Lemma Satisfies_any (v : Version) : Satisfies any v = true.
Proof. reflexivity. Qed.

Lemma Satisfies_none (v : Version) : Satisfies none v = false.
Proof. reflexivity. Qed.

Lemma existsb_drop {A : Type} (f keep : A -> bool) (l : list A) :
  (forall x, keep x = false -> f x = false) ->
  existsb f (filter keep l) = existsb f l.
Proof.
  intros H. induction l as [|x l IH]; simpl; [reflexivity|].
  destruct (keep x) eqn:E; simpl; rewrite IH; [reflexivity|].
  now rewrite (H x E).
Qed.

Lemma forallb_drop {A : Type} (f keep : A -> bool) (l : list A) :
  (forall x, keep x = false -> f x = true) ->
  forallb f (filter keep l) = forallb f l.
Proof.
  intros H. induction l as [|x l IH]; simpl; [reflexivity|].
  destruct (keep x) eqn:E; simpl; rewrite IH; [reflexivity|].
  now rewrite (H x E).
Qed.

(** A union accepts a version when one of its operands does. *)
Lemma Satisfies_Union (cs : list Constraint) (v : Version) :
  Satisfies (Union cs) v = existsb (fun k => Satisfies k v) cs.
Proof.
  unfold Union. destruct (existsb is_any cs) eqn:E.
  - apply existsb_exists in E. destruct E as [x [Hin Hx]].
    destruct x; try discriminate.
    symmetry. apply existsb_exists. exists any. auto.
  - rewrite <- (existsb_drop (fun k => Satisfies k v)
                  (fun c => negb (is_none c)) cs).
    + destruct (filter _ cs); reflexivity.
    + intros x Hx. destruct x; try discriminate. reflexivity.
Qed.

(** An intersection accepts a version when all its operands do. *)
Lemma Satisfies_Intersection (cs : list Constraint) (v : Version) :
  Satisfies (Intersection cs) v = forallb (fun k => Satisfies k v) cs.
Proof.
  unfold Intersection. destruct (existsb is_none cs) eqn:E.
  - apply existsb_exists in E. destruct E as [x [Hin Hx]].
    destruct x; try discriminate.
    symmetry. apply not_true_is_false. intros H.
    rewrite forallb_forall in H. specialize (H none Hin). discriminate.
  - rewrite <- (forallb_drop (fun k => Satisfies k v)
                  (fun c => negb (is_any c)) cs).
    + destruct (filter _ cs); reflexivity.
    + intros x Hx. destruct x; try discriminate. reflexivity.
Qed.

(** *** The ranges of the expansions *)



Lemma expandNeq_exact (a w : Version) :
  Satisfies (expandNeq a false false) w = negb (Equal w a).
Proof.
  unfold expandNeq. simpl. unfold satisfiesRange. simpl.
  now rewrite orb_false_r.
Qed.



(** ** The legacy functions on versions without prerelease tag *)

Lemma Compare_release (w a : Version) :
  prerelease w = "" ->
  ((Compare w a < 0)%Z <-> below w a) /\
  ((Compare w a >= 0)%Z <-> ~ below w a).
Proof.
  intros Hw. destruct w as [wM wm wp wpre wb]; destruct a as [aM am ap apre ab].
  unfold below, Compare, compare. simpl in *. subst wpre.
  destruct (N.compare_spec wM aM); [|simpl; lia|simpl; lia].
  destruct (N.compare_spec wm am); [|simpl; lia|simpl; lia].
  destruct (N.compare_spec wp ap); [|simpl; lia|simpl; lia].
  destruct apre; simpl; lia.
Qed.

Lemma Compare_lt_release (w a : Version) :
  prerelease w = "" -> ((Compare w a < 0)%Z <-> below w a).
Proof. intros H. apply (Compare_release w a H). Qed.

Lemma Compare_ge_release (w a : Version) :
  prerelease w = "" -> ((Compare w a >= 0)%Z <-> ~ below w a).
Proof. intros H. apply (Compare_release w a H). Qed.

Ltac to_numbers Hw :=
  unfold within, LessThan, GreaterThan, Equal, Major, Minor, Patch,
    zero_numbers in *;
  repeat match goal with
    | |- context [(?x <? ?y)%Z] => destruct (Z.ltb_spec x y)
    | |- context [(?x =? ?y)%N] => destruct (N.eqb_spec x y)
    | |- context [(?x <? ?y)%N] => destruct (N.ltb_spec x y)
    end;
  rewrite ?(Compare_lt_release _ _ Hw), ?(Compare_ge_release _ _ Hw) in *;
  repeat match goal with
    | H : (Compare _ _ < 0)%Z |- _ => apply (Compare_lt_release _ _ Hw) in H
    | H : (0 <= Compare _ _)%Z |- _ =>
        apply Z.le_ge in H; apply (Compare_ge_release _ _ Hw) in H
    end;
  unfold below, bumped, release in *; simpl in *.

Lemma constraintCaret_release (c : constraint) (w : Version) :
  prerelease w = "" ->
  (constraintCaret w c = true <->
   within (con c) (release (major (con c) + 1) 0 0) w).
Proof.
  intros Hw. unfold constraintCaret. to_numbers Hw; simpl; intuition (try discriminate; try lia).
Qed.

Lemma constraintTilde_release (c : constraint) (w : Version) :
  prerelease w = "" ->
  zero_numbers (con c) = false ->
  (constraintTilde w c = true <->
   within (con c)
     (if minorDirty c then release (major (con c) + 1) 0 0
      else release (major (con c)) (minor (con c) + 1) 0) w).
Proof.
  intros Hw Hz. unfold constraintTilde.
  destruct (minorDirty c); to_numbers Hw; simpl in *;
    intuition (try discriminate; try lia).
Qed.


Lemma constraintNotEqual_plain (c : constraint) (w : Version) :
  dirty c = false -> constraintNotEqual w c = negb (Equal w (con c)).
Proof. intros H. unfold constraintNotEqual. now rewrite H. Qed.

Lemma constraintNotEqual_release (c : constraint) (w : Version) :
  dirty c = true ->
  prerelease w = "" ->
  patch (con c) = 0%N ->
  (minorDirty c = true -> minor (con c) = 0%N) ->
  (constraintNotEqual w c = true <->
   (Compare w (con c) < 0)%Z \/
   (Compare w (bumped (con c) (minorDirty c)) >= 0)%Z).
Proof.
  intros Hd Hw Hp Hm. unfold constraintNotEqual. rewrite Hd.
  destruct (minorDirty c); to_numbers Hw; simpl in *;
    intuition (try discriminate; try lia).
Qed.

Lemma bool_eq_iff (b1 b2 : bool) : (b1 = true <-> b2 = true) -> b1 = b2.
Proof. destruct b1, b2; intuition congruence. Qed.

(** ** Claims about the grammar *)

(** Whatever the predicate, [parseConstraintNu] turns a clause whose
    major component is [x], [X] or [*] into [any]. *)
Lemma parseConstraintNu_full_wildcard (s : string) (m : submatch) :
  FindStringSubmatch s = Some m ->
  isX (m3 m) = true ->
  parseConstraintNu s = inl any.
Proof.
  intros Hm Hx. unfold parseConstraintNu. now rewrite Hm, Hx.
Qed.

(** C4.  The legacy pipeline does not treat a full wildcard as "any": the
    text [^*] rejects 1.0.0, the text [!=x] rejects 0.0.1 and the text
    [<X] rejects 1.0.0, while the range algebra accepts each of them; the
    empty text is no clause for either parser. *)
Theorem full_wildcard_is_not_any :
  check_text "^*" (release 1 0 0) = Some false
  /\ satisfies_text "^*" (release 1 0 0) = Some true
  /\ check_text "!=x" (release 0 0 1) = Some false
  /\ satisfies_text "!=x" (release 0 0 1) = Some true
  /\ check_text "<X" (release 1 0 0) = Some false
  /\ satisfies_text "<X" (release 1 0 0) = Some true
  /\ NewConstraint "" = inr (Errorf "improper constraint: %s" [arg_string ""])
  /\ NewConstraintNu "" = inr (Errorf "Malformed constraint: %s" [arg_string ""]).
Proof. vm_compute. repeat split; reflexivity. Qed.

(** C5.  A clause without minor component is not the clause with a
    wildcard minor: [isX] is false on the empty group, and [NewVersion]
    reads the missing component as 0.  The texts [~2] and [=1] reject
    2.5.0 and 1.5.0, the texts [~2.x] and [=1.x] accept them, in both
    pipelines. *)
Theorem omitted_minor_is_not_wildcard :
  isX "" = false
  /\ check_text "~2" (release 2 5 0) = Some false
  /\ check_text "~2.x" (release 2 5 0) = Some true
  /\ satisfies_text "~2" (release 2 5 0) = Some false
  /\ satisfies_text "~2.x" (release 2 5 0) = Some true
  /\ check_text "=1" (release 1 5 0) = Some false
  /\ check_text "=1.x" (release 1 5 0) = Some true
  /\ satisfies_text "=1" (release 1 5 0) = Some false
  /\ satisfies_text "=1.x" (release 1 5 0) = Some true.
Proof. vm_compute. repeat split; reflexivity. Qed.

(** C6.  [rewriteRange] replaces the first occurrence of the text of each
    match in the text rewritten so far, which need not be the place of
    the match.  In [1.0.0-1 - 2.0.0 || 1.0.0-1] the regexp finds two hyphen
    ranges; the text of the second also occurs in the replacement of the
    first, so the second replacement lands there, the second range stays
    as it was, and the construction fails, although each of the two parts
    alone is rewritten and accepted.  The text [1.0.0 - 2.0.0] is rewritten
    as expected and accepts 1.5.0 and 2.0.0 and rejects 2.0.1. *)
Theorem rewriteRange_first_occurrence :
  map v0 (FindAllStringSubmatch "1.0.0-1 - 2.0.0 || 1.0.0-1")
    = ["1.0.0-1 - 2.0.0 "; " 1.0.0-1"]
  /\ rewriteRange "1.0.0-1 - 2.0.0 || 1.0.0-1"
     = ">=>= 1.0.0, <= 1, <= 2.0.0|| 1.0.0-1"
  /\ NewConstraint "1.0.0-1 - 2.0.0 || 1.0.0-1"
     = inr (Errorf "improper constraint: %s" [arg_string ">=>= 1.0.0"])
  /\ rewriteRange "1.0.0-1 - 2.0.0 " = ">= 1.0.0-1, <= 2.0.0"
  /\ rewriteRange " 1.0.0-1" = ">= 1.0.0, <= 1"
  /\ rewriteRange "1.0.0 - 2.0.0" = ">= 1.0.0, <= 2.0.0"
  /\ map (check_text "1.0.0 - 2.0.0")
       [release 1 5 0; release 2 0 0; release 2 0 1]
     = [Some true; Some true; Some false].
Proof. vm_compute. repeat split; reflexivity. Qed.

(** A clause that the regexp does not match makes the construction fail,
    wherever it stands in the text. *)
Lemma NewConstraint_fails (text : string) (g : list string) (s : string) :
  In g (clauses text) -> In s g -> FindStringSubmatch s = None ->
  exists err, NewConstraint text = inr err.
Proof.
  intros Hg Hs Hm. unfold NewConstraint. unfold clauses in Hg.
  apply in_map_iff in Hg. destruct Hg as [v [<- Hv]].
  destruct (for_each_error
              (fun v => for_each parseConstraint (GoStrings.Split v ","))
              _ v Hv) as [err Herr].
  - apply (for_each_error parseConstraint _ s Hs).
    unfold parseConstraint. rewrite Hm. eauto.
  - rewrite Herr. eauto.
Qed.

(** X2.  When the first clause that is not parsed is one the regexp does
    not match, the error of [NewConstraint] is the improper-constraint
    error carrying this clause. *)
Lemma NewConstraint_improper
  (text : string) (gs1 : list (list string)) (l1 : list string) (s : string)
  (l2 : list string) (gs2 : list (list string)) :
  clauses text = (gs1 ++ (l1 ++ s :: l2) :: gs2)%list ->
  (forall g x, In g gs1 -> In x g -> exists c, parseConstraint x = inl c) ->
  (forall x, In x l1 -> exists c, parseConstraint x = inl c) ->
  FindStringSubmatch s = None ->
  NewConstraint text = inr (Errorf "improper constraint: %s" [arg_string s]).
Proof.
  intros Hc Hgs Hl Hm. unfold NewConstraint.
  assert (Hloop :
    for_each (for_each parseConstraint) (clauses text)
    = inr (Errorf "improper constraint: %s" [arg_string s])).
  { rewrite Hc. apply for_each_first_error.
    - intros g Hg.
      assert (Hall : forall x, In x g -> exists c, parseConstraint x = inl c)
        by (intros x Hx; exact (Hgs g x Hg Hx)).
      clear Hg. induction g as [|x g IH]; simpl; [eauto|].
      destruct (Hall x (or_introl eq_refl)) as [c ->].
      destruct IH as [b ->]; [intros y Hy; apply Hall; now right|]. eauto.
    - apply for_each_first_error; [exact Hl|].
      unfold parseConstraint. now rewrite Hm. }
  unfold clauses in Hloop.
  assert (Hmap : forall l,
    for_each (for_each parseConstraint)
      (map (fun v => GoStrings.Split v ",") l)
    = for_each (fun v => for_each parseConstraint (GoStrings.Split v ",")) l).
  { induction l as [|v l IH]; simpl; [reflexivity|]. now rewrite IH. }
  rewrite Hmap in Hloop. now rewrite Hloop.
Qed.

Lemma NewConstraint_improper_witness :
  clauses "1.0.0,>>2||3.x" = ([] ++ (["1.0.0"] ++ ">>2" :: []) :: [["3.x"]])%list /\
  FindStringSubmatch ">>2" = None /\
  NewConstraint "1.0.0,>>2||3.x"
  = inr (Errorf "improper constraint: %s" [arg_string ">>2"]).
Proof.
  split; [vm_compute; reflexivity|]. split; [vm_compute; reflexivity|].
  apply (NewConstraint_improper "1.0.0,>>2||3.x" [] ["1.0.0"] ">>2" [] [["3.x"]]).
  - vm_compute. reflexivity.
  - intros g x [].
  - intros x [<-|[]]. eexists. vm_compute. reflexivity.
  - vm_compute. reflexivity.
Defined.

(** C7.  The clause [1x] is matched by the regexp (its class of component
    bytes holds digits and wildcard letters alike) and is no version, so
    [parseConstraint] returns the parser error, which carries no clause.
    On the text [1x, >> 1.0.0], whose second clause the regexp does not
    match, this is the error of the construction in both pipelines.  On
    the text [>> 1.0.0] the error carries the clause. *)
Theorem parser_error_carries_no_clause :
  FindStringSubmatch " >> 1.0.0" = None
  /\ option_map m3 (FindStringSubmatch "1x") = Some "1x"
  /\ NewVersion "1x" = None
  /\ NewConstraint "1x" = inr (errors_New "constraint Parser Error")
  /\ NewConstraint "1x, >> 1.0.0" = inr (errors_New "constraint Parser Error")
  /\ NewConstraintNu "1x, >> 1.0.0" = inr (errors_New "constraint Parser Error")
  /\ NewConstraint ">> 1.0.0"
     = inr (Errorf "improper constraint: %s" [arg_string ">> 1.0.0"])
  /\ NewConstraintNu ">> 1.0.0"
     = inr (Errorf "Malformed constraint: %s" [arg_string ">> 1.0.0"]).
Proof. vm_compute. repeat split; reflexivity. Qed.

(** * Further properties of the code *)

(** ** Exact patterns

    The patterns of the package only read: a match leaves the input as
    the text of the match followed by the rest. *)

Lemma append_assoc (a b c : string) : (a ++ b) ++ c = a ++ (b ++ c).
Proof. induction a as [|x a IH]; simpl; [reflexivity|now rewrite IH]. Qed.

Lemma append_empty_r (a : string) : a ++ "" = a.
Proof. induction a as [|x a IH]; simpl; [reflexivity|now rewrite IH]. Qed.

Lemma length_append (a b : string) :
  String.length (a ++ b) = (String.length a + String.length b)%nat.
Proof. induction a as [|x a IH]; simpl; [reflexivity|now rewrite IH]. Qed.

Lemma HasPrefix_append (t r : string) : GoStrings.HasPrefix (t ++ r) t = true.
Proof.
  unfold GoStrings.HasPrefix. induction t as [|c t IH]; simpl.
  - now destruct r.
  - destruct (ascii_dec c c); [exact IH|congruence].
Qed.

Lemma drop_append (t r : string) : GoStrings.drop (String.length t) (t ++ r) = r.
Proof. induction t as [|c t IH]; simpl; [reflexivity|exact IH]. Qed.

(** A prefix splits the text. *)
Lemma HasPrefix_split (s t : string) :
  GoStrings.HasPrefix s t = true ->
  s = t ++ GoStrings.drop (String.length t) s.
Proof.
  unfold GoStrings.HasPrefix. revert s.
  induction t as [|c t IH]; intros s; simpl; [reflexivity|].
  destruct s as [|b s]; simpl; [intros; discriminate|].
  destruct (ascii_dec c b) as [<-|]; [|intros; discriminate].
  intros H. f_equal. now apply IH.
Qed.

(** The combinators keep patterns exact. *)
Lemma exact_lit (t : string) : exact (lit t).
Proof.
  intros s a r H. unfold lit in *.
  destruct (GoStrings.HasPrefix s t) eqn:E; [|destruct H].
  destruct H as [H|[]]. injection H as <- <-. split.
  - now apply HasPrefix_split.
  - intros r'. rewrite HasPrefix_append, drop_append. now left.
Qed.

Lemma exact_chr (cls : ascii -> bool) : exact (chr cls).
Proof.
  intros s a r H. unfold chr in *. destruct s as [|c s]; [destruct H|].
  destruct (cls c) eqn:E; [|destruct H].
  destruct H as [H|[]]. injection H as <- <-. split; [reflexivity|].
  intros r'. simpl. rewrite E. now left.
Qed.

Lemma exact_star (cls : ascii -> bool) : exact (star cls).
Proof.
  intros s. induction s as [|c s IH]; intros a r H; simpl in H.
  - destruct H as [H|[]]. injection H as <- <-. split; [reflexivity|].
    intros r'. simpl. destruct r' as [|c r']; simpl; [now left|].
    destruct (cls c); [apply in_or_app; right|]; now left.
  - destruct (cls c) eqn:E.
    + apply in_app_or in H. destruct H as [H|[H|[]]].
      * apply in_map_iff in H. destruct H as [[t r0] [Heq H]].
        injection Heq as <- <-. simpl. apply IH in H. destruct H as [-> H].
        split; [reflexivity|]. intros r'. simpl. rewrite E.
        apply in_or_app. left. apply in_map_iff. exists (t, r'). auto.
      * injection H as <- <-. split; [reflexivity|].
        intros r'. simpl. destruct r' as [|c' r']; simpl; [now left|].
        destruct (cls c'); [apply in_or_app; right|]; now left.
    + destruct H as [H|[]]. injection H as <- <-. split; [reflexivity|].
      intros r'. simpl. destruct r' as [|c' r']; simpl; [now left|].
      destruct (cls c'); [apply in_or_app; right|]; now left.
Qed.

Lemma star_empty (cls : ascii -> bool) (s : string) : In (EmptyString, s) (star cls s).
Proof.
  destruct s as [|c s]; simpl; [now left|].
  destruct (cls c); [apply in_or_app; right|]; now left.
Qed.

Lemma exact_ret_empty : exact (ret EmptyString).
Proof.
  intros s a r [H|[]]. injection H as <- <-. split; [reflexivity|].
  intros r'. now left.
Qed.

Lemma exact_alt (p q : M string) : exact p -> exact q -> exact (alt p q).
Proof.
  intros Hp Hq s a r H. unfold alt in *. apply in_app_or in H.
  destruct H as [H|H]; [apply Hp in H|apply Hq in H];
    destruct H as [-> H]; (split; [reflexivity|]); intros r';
    apply in_or_app; [left|right]; apply H.
Qed.

(** Two exact patterns in sequence, the texts joined. *)
Lemma exact_cat (p q : M string) :
  exact p -> exact q -> exact (a <- p ;; b <- q ;; ret (a ++ b)).
Proof.
  intros Hp Hq s c r H.
  apply in_bind in H. destruct H as [a [s1 [Ha H]]].
  apply in_bind in H. destruct H as [b [s2 [Hb H]]].
  destruct H as [H|[]]. injection H as <- <-.
  apply Hp in Ha. destruct Ha as [-> Ha].
  apply Hq in Hb. destruct Hb as [-> Hb].
  split; [now rewrite append_assoc|].
  intros r'. apply in_bind. exists a, (b ++ r'). split.
  - rewrite append_assoc. apply Ha.
  - apply in_bind. exists b, r'. split; [apply Hb|now left].
Qed.

Lemma exact_plus (cls : ascii -> bool) : exact (plus cls).
Proof. apply (exact_cat (chr cls) (star cls)); [apply exact_chr|apply exact_star]. Qed.

Lemma exact_opt (p : M string) : exact p -> exact (opt p).
Proof. intros H. apply exact_alt; [exact H|apply exact_ret_empty]. Qed.

Lemma exact_rep (n : nat) (p : M string) : exact p -> exact (rep n p).
Proof.
  intros Hp. induction n as [|n IH]; simpl.
  - apply exact_ret_empty.
  - apply exact_alt; [|apply exact_ret_empty]. now apply exact_cat.
Qed.

(** More iterations allowed, no match lost. *)
Lemma rep_more (p : M string) (n n' : nat) (s : string) (x : string * string) :
  (n <= n')%nat -> In x (rep n p s) -> In x (rep n' p s).
Proof.
  revert n' s x. induction n as [|n IH]; intros n' s x Hle H.
  - destruct H as [<-|[]]. destruct n'; simpl; [now left|].
    apply in_or_app. right. now left.
  - destruct n' as [|n']; [lia|]. simpl in *. unfold alt in *.
    apply in_app_or in H. apply in_or_app. destruct H as [H|H]; [left|now right].
    apply in_bind in H. destruct H as [a [s1 [Ha H]]].
    apply in_bind in H. destruct H as [b [s2 [Hb H]]].
    apply in_bind. exists a, s1. split; [exact Ha|].
    apply in_bind. exists b, s2. split; [|exact H].
    apply IH; [lia|exact Hb].
Qed.

(** A match of the repetition of a pattern that takes at least one byte
    needs no more iterations than its text has bytes. *)
Lemma rep_enough (p : M string) (n : nat) :
  exact p ->
  (forall s r, ~ In (EmptyString, r) (p s)) ->
  forall s a r, In (a, r) (rep n p s) -> In (a, r) (rep (String.length a) p s).
Proof.
  intros Hp Hne. induction n as [|n IH]; intros s a r H.
  - destruct H as [H|[]]. injection H as <- <-. now left.
  - simpl in H. unfold alt in H. apply in_app_or in H. destruct H as [H|H].
    + apply in_bind in H. destruct H as [x [s1 [Hx H]]].
      apply in_bind in H. destruct H as [b [s2 [Hb H]]].
      destruct H as [H|[]]. injection H as <- <-.
      destruct x as [|c x]; [exfalso; eapply Hne; eauto|].
      apply IH in Hb. simpl String.length. simpl rep. unfold alt.
      apply in_or_app. left.
      apply in_bind. exists (String c x), s1. split; [exact Hx|].
      apply in_bind. exists b, s2. split; [|now left].
      eapply rep_more; [|exact Hb]. rewrite length_append. lia.
    + destruct H as [H|[]]. injection H as <- <-. now left.
Qed.

(** The unbounded repetition of an exact pattern that takes at least one
    byte. *)
Lemma exact_many (p : M string) :
  exact p -> (forall s r, ~ In (EmptyString, r) (p s)) -> exact (many p).
Proof.
  intros Hp Hne s a r H. unfold many in *.
  pose proof (rep_enough p _ Hp Hne _ _ _ H) as H1.
  apply (exact_rep _ p Hp) in H1. destruct H1 as [-> H1]. split; [reflexivity|].
  intros r'. eapply rep_more; [|apply H1]. rewrite length_append. lia.
Qed.

Lemma cat_nonempty (p q : M string) (s r : string) :
  (forall s r, ~ In (EmptyString, r) (p s)) ->
  ~ In (EmptyString, r) ((a <- p ;; b <- q ;; ret (a ++ b)) s).
Proof.
  intros Hp H.
  apply in_bind in H. destruct H as [a [s1 [Ha H]]].
  apply in_bind in H. destruct H as [b [s2 [Hb H]]].
  destruct H as [H|[]]. injection H as H _.
  destruct a; [eapply Hp; eauto|discriminate].
Qed.

Lemma lit_nonempty (c : ascii) (t s r : string) :
  ~ In (EmptyString, r) (lit (String c t) s).
Proof.
  unfold lit. destruct (GoStrings.HasPrefix s (String c t)); [|intros []].
  intros [H|[]]. discriminate.
Qed.

Lemma exact_idents : exact idents.
Proof.
  apply (exact_cat (plus is_ident)
           (many (d <- lit "." ;; i <- plus is_ident ;; ret (d ++ i)))).
  - apply exact_plus.
  - apply exact_many.
    + apply exact_cat; [apply exact_lit|apply exact_plus].
    + intros s r. apply cat_nonempty. intros s' r'. apply lit_nonempty.
Qed.

(** The version pattern is exact for the text it returns. *)
Lemma exact_version_pattern (comp : ascii -> bool) :
  exact_by cv_text (version_pattern comp).
Proof.
  assert (Hdot : exact (d <- lit "." ;; c <- plus comp ;; ret (d ++ c)))
    by (apply exact_cat; [apply exact_lit|apply exact_plus]).
  assert (Hpre : exact (h <- lit "-" ;; i <- idents ;; ret (h ++ i)))
    by (apply exact_cat; [apply exact_lit|apply exact_idents]).
  assert (Hbu : exact (p <- lit "+" ;; i <- idents ;; ret (p ++ i)))
    by (apply exact_cat; [apply exact_lit|apply exact_idents]).
  intros s a r H. unfold version_pattern in H.
  apply in_bind in H. destruct H as [v [s1 [Hv H]]].
  apply in_bind in H. destruct H as [ma [s2 [Hma H]]].
  apply in_bind in H. destruct H as [mi [s3 [Hmi H]]].
  apply in_bind in H. destruct H as [pa [s4 [Hpa H]]].
  apply in_bind in H. destruct H as [pr [s5 [Hpr H]]].
  apply in_bind in H. destruct H as [bu [s6 [Hbu' H]]].
  destruct H as [H|[]]. injection H as <- <-.
  apply (exact_opt _ (exact_lit "v")) in Hv. destruct Hv as [-> Hv].
  apply exact_plus in Hma. destruct Hma as [-> Hma].
  apply (exact_opt _ Hdot) in Hmi. destruct Hmi as [-> Hmi].
  apply (exact_opt _ Hdot) in Hpa. destruct Hpa as [-> Hpa].
  apply (exact_opt _ Hpre) in Hpr. destruct Hpr as [-> Hpr].
  apply (exact_opt _ Hbu) in Hbu'. destruct Hbu' as [-> Hbu'].
  cbn [cv_text]. split; [now rewrite !append_assoc|].
  intros r'. unfold version_pattern. rewrite !append_assoc.
  apply in_bind. eexists _, _. split; [apply Hv|].
  apply in_bind. eexists _, _. split; [apply Hma|].
  apply in_bind. eexists _, _. split; [apply Hmi|].
  apply in_bind. eexists _, _. split; [apply Hpa|].
  apply in_bind. eexists _, _. split; [apply Hpr|].
  apply in_bind. eexists _, _. split; [apply Hbu'|].
  now left.
Qed.

(** The range regexp is exact for the whole match. *)
Lemma exact_constraintRangeRegex : exact_by v0 constraintRangeRegex.
Proof.
  intros s m r H. unfold constraintRangeRegex in H.
  apply in_bind in H. destruct H as [a [s1 [Ha H]]].
  apply in_bind in H. destruct H as [x [s2 [Hx H]]].
  apply in_bind in H. destruct H as [b [s3 [Hb H]]].
  apply in_bind in H. destruct H as [h [s4 [Hh H]]].
  apply in_bind in H. destruct H as [c [s5 [Hc H]]].
  apply in_bind in H. destruct H as [y [s6 [Hy H]]].
  apply in_bind in H. destruct H as [d [s7 [Hd H]]].
  destruct H as [H|[]]. injection H as <- <-.
  apply exact_star in Ha. destruct Ha as [-> Ha].
  apply exact_version_pattern in Hx. destruct Hx as [-> Hx].
  apply exact_star in Hb. destruct Hb as [-> Hb].
  apply exact_lit in Hh. destruct Hh as [-> Hh].
  apply exact_star in Hc. destruct Hc as [-> Hc].
  apply exact_version_pattern in Hy. destruct Hy as [-> Hy].
  apply exact_star in Hd. destruct Hd as [-> Hd].
  cbn [v0]. split; [now rewrite !append_assoc|].
  intros r'. unfold constraintRangeRegex. rewrite !append_assoc.
  apply in_bind. eexists _, _. split; [apply Ha|].
  apply in_bind. eexists _, _. split; [apply Hx|].
  apply in_bind. eexists _, _. split; [apply Hb|].
  apply in_bind. eexists _, _. split; [apply Hh|].
  apply in_bind. eexists _, _. split; [apply Hc|].
  apply in_bind. eexists _, _. split; [apply Hy|].
  apply in_bind. eexists _, _. split; [apply Hd|].
  now left.
Qed.

(** ** What the clause regexp read *)

(** What a starred class takes is made of bytes of the class. *)
Lemma star_all (cls : ascii -> bool) (s t r : string) :
  In (t, r) (star cls s) -> all_bytes cls t = true.
Proof.
  revert t r. induction s as [|c s IH]; intros t r H; simpl in H.
  - destruct H as [H|[]]. now injection H as <- <-.
  - destruct (cls c) eqn:E.
    + apply in_app_or in H. destruct H as [H|[H|[]]].
      * apply in_map_iff in H. destruct H as [[t0 r0] [Heq H]].
        injection Heq as <- <-. simpl. rewrite E. eapply IH; eauto.
      * now injection H as <- <-.
    + destruct H as [H|[]]. now injection H as <- <-.
Qed.

(** The blanks, the operator and the version text of a match make up the
    clause. *)
Lemma FindStringSubmatch_text (order : list opkey) (c : string) (m : submatch) :
  first_full (constraintRegex_in order c) = Some m ->
  exists a b d,
    c = a ++ op_text (m1 m) ++ b ++ m2 m ++ d /\
    all_bytes is_space a = true /\ all_bytes is_space b = true /\
    all_bytes is_space d = true /\ In (m1 m) order.
Proof.
  intros H. apply first_full_In in H. unfold constraintRegex_in in H.
  apply in_bind in H. destruct H as [a [s1 [Ha H]]].
  apply in_bind in H. destruct H as [k [s2 [Hk H]]].
  unfold clause_tail in H.
  apply in_bind in H. destruct H as [b [s3 [Hb H]]].
  apply in_bind in H. destruct H as [cv [s4 [Hcv H]]].
  apply in_bind in H. destruct H as [d [s5 [Hd H]]].
  destruct H as [H|[]]. injection H as <- ->.
  unfold alts in Hk. apply in_flat_map in Hk. destruct Hk as [p [Hp Hk]].
  apply in_map_iff in Hp. destruct Hp as [k' [<- Hk']].
  apply in_bind in Hk. destruct Hk as [o [s6 [Ho Hk]]].
  destruct Hk as [Hk|[]]. injection Hk as <- <-.
  pose proof (star_all _ _ _ _ Ha) as Wa.
  pose proof (star_all _ _ _ _ Hb) as Wb.
  pose proof (star_all _ _ _ _ Hd) as Wd.
  apply exact_star in Ha. destruct Ha as [-> _].
  unfold lit in Ho. destruct (GoStrings.HasPrefix s1 (op_text k')) eqn:E;
    [|destruct Ho].
  destruct Ho as [Ho|[]]. injection Ho as <- <-.
  apply HasPrefix_split in E.
  apply exact_star in Hb. destruct Hb as [Eb _].
  apply exact_version_pattern in Hcv. destruct Hcv as [-> _].
  apply exact_star in Hd. destruct Hd as [-> _].
  exists a, b, d. cbn [m1 m2]. rewrite append_empty_r in Eb.
  split; [rewrite E at 1; now rewrite Eb|]. repeat split; auto.
Qed.

(** X3.  A clause text that [parseConstraint] accepts is made of blanks,
    the operator, blanks, the version text and blanks, and of nothing
    else; the clause keeps the operator in [predicate] and the version
    text in [orig] as they were written, and the operator is one of the
    twelve keys of [constraintOps]. *)
Theorem parseConstraint_reads_clause (s : string) (c : constraint) :
  parseConstraint s = inl c ->
  exists a b d,
    s = a ++ predicate c ++ b ++ orig c ++ d /\
    all_bytes is_space a = true /\ all_bytes is_space b = true /\
    all_bytes is_space d = true /\
    In (predicate c) (map op_text ops).
Proof.
  unfold parseConstraint. destruct (FindStringSubmatch s) as [m|] eqn:Em;
    [|discriminate].
  apply FindStringSubmatch_text in Em.
  destruct Em as [a [b [d [E [Wa [Wb [Wd Hin]]]]]]].
  intros H.
  assert (Hc : predicate c = op_text (m1 m) /\ orig c = m2 m).
  { destruct (isX (m3 m)); [|destruct (isX _); [|destruct (isX _)]];
      (destruct (NewVersion _); [|discriminate]); injection H as <-; auto. }
  destruct Hc as [-> ->]. exists a, b, d. repeat split; auto.
  now apply in_map.
Qed.

Lemma parseConstraint_reads_clause_witness :
  exists c,
    parseConstraint " >= 1.2.x " = inl c /\
    exists a b d,
      " >= 1.2.x " = a ++ predicate c ++ b ++ orig c ++ d /\
      all_bytes is_space a = true /\ all_bytes is_space b = true /\
      all_bytes is_space d = true /\ In (predicate c) (map op_text ops).
Proof.
  eexists. split; [vm_compute; reflexivity|].
  apply parseConstraint_reads_clause. vm_compute. reflexivity.
Defined.

(** ** [rewriteRange] *)

(** A byte occurs in a concatenation when it occurs in a part. *)
Lemma holds_append (c : ascii) (p q : string) :
  holds c (p ++ String c q) = true.
Proof.
  induction p as [|b p IH]; simpl.
  - now rewrite Ascii.eqb_refl.
  - rewrite IH. apply orb_true_r.
Qed.

(** The range regexp matches nothing at the head of a text without
    hyphen. *)
Lemma constraintRangeRegex_hyphen (s : string) (x : rangeMatch * string) :
  In x (constraintRangeRegex s) -> holds "-" s = true.
Proof.
  destruct x as [m r]. intros H. unfold constraintRangeRegex in H.
  apply in_bind in H. destruct H as [a [s1 [Ha H]]].
  apply in_bind in H. destruct H as [x [s2 [Hx H]]].
  apply in_bind in H. destruct H as [b [s3 [Hb H]]].
  apply in_bind in H. destruct H as [h [s4 [Hh _]]].
  apply exact_star in Ha. destruct Ha as [-> _].
  apply exact_version_pattern in Hx. destruct Hx as [-> _].
  apply exact_star in Hb. destruct Hb as [-> _].
  unfold lit in Hh. destruct (GoStrings.HasPrefix s3 "-") eqn:E; [|destruct Hh].
  apply HasPrefix_split in E. rewrite E. simpl.
  rewrite <- !append_assoc. apply holds_append.
Qed.

(** No hyphen, no match. *)
Lemma find_all_none (s : string) :
  holds "-" s = false -> forall k, find_all k s = [].
Proof.
  induction s as [|c s IH]; intros H k; [reflexivity|].
  simpl in H. apply orb_false_iff in H. destruct H as [Hc Hs].
  simpl. destruct k as [|k]; [|now apply IH].
  destruct (constraintRangeRegex (String c s)) as [|[m r] l] eqn:E;
    [now apply IH|].
  assert (Hh : holds "-" (String c s) = true)
    by (apply (constraintRangeRegex_hyphen _ (m, r)); rewrite E; now left).
  simpl in Hh. rewrite Hc, Hs in Hh. discriminate.
Qed.

(** X4.  [rewriteRange] returns a text without a hyphen as it is. *)
Theorem rewriteRange_no_hyphen (i : string) :
  holds "-" i = false -> rewriteRange i = i.
Proof.
  intros H. unfold rewriteRange, FindAllStringSubmatch.
  now rewrite (find_all_none i H).
Qed.

Lemma rewriteRange_no_hyphen_witness :
  holds "-" ">=1.0.0, <2.0.0 || 3.x" = false /\
  rewriteRange ">=1.0.0, <2.0.0 || 3.x" = ">=1.0.0, <2.0.0 || 3.x".
Proof.
  split; [reflexivity|]. apply rewriteRange_no_hyphen. reflexivity.
Defined.

(** [strings.Replace] with count 1, at the head and further on. *)
Lemma Replace1_prefix (s old new : string) :
  GoStrings.HasPrefix s old = true ->
  GoStrings.Replace1 s old new = new ++ GoStrings.drop (String.length old) s.
Proof. intros H. destruct s; cbn [GoStrings.Replace1]; now rewrite H. Qed.

Lemma Replace1_later (c : ascii) (s old new : string) :
  GoStrings.HasPrefix (String c s) old = false ->
  GoStrings.Replace1 (String c s) old new = String c (GoStrings.Replace1 s old new).
Proof. intros H. cbn [GoStrings.Replace1]. now rewrite H. Qed.

(** The first match is found where its text first occurs, so the first
    replacement is made in place. *)
Lemma find_all_first (i : string) (m : rangeMatch) (l : list rangeMatch) :
  find_all 0 i = m :: l ->
  exists pre post,
    i = pre ++ v0 m ++ post /\
    In (m, post) (constraintRangeRegex (v0 m ++ post)) /\
    forall t, GoStrings.Replace1 i (v0 m) t = pre ++ t ++ post.
Proof.
  induction i as [|c i IH]; intros H; [discriminate|].
  cbn [find_all] in H.
  destruct (constraintRangeRegex (String c i)) as [|[m' r] l'] eqn:E.
  - destruct (IH H) as [pre [post [Ei [Hin Hr]]]].
    exists (String c pre), post. split; [simpl; now rewrite Ei|].
    split; [exact Hin|]. intros t.
    destruct (GoStrings.HasPrefix (String c i) (v0 m)) eqn:Ep.
    + exfalso. apply HasPrefix_split in Ep.
      apply exact_constraintRangeRegex in Hin. destruct Hin as [_ Hin].
      specialize (Hin (GoStrings.drop (String.length (v0 m)) (String c i))).
      rewrite <- Ep, E in Hin. destruct Hin.
    + rewrite (Replace1_later _ _ _ _ Ep), Hr. reflexivity.
  - injection H as -> _.
    assert (Hm : In (m, r) (constraintRangeRegex (String c i)))
      by (rewrite E; now left).
    pose proof (exact_constraintRangeRegex _ _ _ Hm) as [Ei Hloc].
    exists EmptyString, r. split; [exact Ei|]. split; [apply Hloc|].
    intros t. rewrite Ei, Replace1_prefix by apply HasPrefix_append.
    now rewrite drop_append.
Qed.

(** A match is made of blanks, the first version, blanks, a hyphen,
    blanks, the second version and blanks. *)
Lemma constraintRangeRegex_text (s : string) (m : rangeMatch) (r : string) :
  In (m, r) (constraintRangeRegex s) ->
  exists a b c d,
    v0 m = a ++ v1 m ++ b ++ "-" ++ c ++ v11 m ++ d /\
    all_bytes is_space a = true /\ all_bytes is_space b = true /\
    all_bytes is_space c = true /\ all_bytes is_space d = true.
Proof.
  intros H. unfold constraintRangeRegex in H.
  apply in_bind in H. destruct H as [a [s1 [Ha H]]].
  apply in_bind in H. destruct H as [x [s2 [Hx H]]].
  apply in_bind in H. destruct H as [b [s3 [Hb H]]].
  apply in_bind in H. destruct H as [h [s4 [Hh H]]].
  apply in_bind in H. destruct H as [c [s5 [Hc H]]].
  apply in_bind in H. destruct H as [y [s6 [Hy H]]].
  apply in_bind in H. destruct H as [d [s7 [Hd H]]].
  destruct H as [H|[]]. injection H as <- <-.
  unfold lit in Hh. destruct (GoStrings.HasPrefix s3 "-"); [|destruct Hh].
  destruct Hh as [Hh|[]]. injection Hh as <- <-.
  exists a, b, c, d. cbn [v0 v1 v11].
  repeat split; eauto using star_all.
Qed.

(** X5.  When [constraintRangeRegex] finds exactly one match in the text,
    [rewriteRange] replaces it where it stands: the match, made of the
    first version, a hyphen and the second version with the blanks around
    each, gives way to the two comparisons, and the text before and after
    the match is unchanged.  The blanks around the match are taken away
    with it. *)
Theorem rewriteRange_single (i : string) (m : rangeMatch) :
  FindAllStringSubmatch i = [m] ->
  exists pre post a b c d,
    i = pre ++ (a ++ v1 m ++ b ++ "-" ++ c ++ v11 m ++ d) ++ post /\
    all_bytes is_space a = true /\ all_bytes is_space b = true /\
    all_bytes is_space c = true /\ all_bytes is_space d = true /\
    rewriteRange i = pre ++ (">= " ++ v1 m ++ ", <= " ++ v11 m) ++ post.
Proof.
  intros H. unfold rewriteRange. rewrite H. unfold FindAllStringSubmatch in H.
  destruct (find_all_first i m [] H) as [pre [post [Ei [Hin Hr]]]].
  destruct (constraintRangeRegex_text _ _ _ Hin) as [a [b [c [d [E W]]]]].
  exists pre, post, a, b, c, d. split; [now rewrite <- E|].
  repeat split; try apply W. simpl. apply Hr.
Qed.

Lemma rewriteRange_single_witness :
  exists m,
    FindAllStringSubmatch "^0.5.0 || 1.0.0 - 2.0.0" = [m] /\
    exists pre post a b c d,
      "^0.5.0 || 1.0.0 - 2.0.0"
      = pre ++ (a ++ v1 m ++ b ++ "-" ++ c ++ v11 m ++ d) ++ post /\
      all_bytes is_space a = true /\ all_bytes is_space b = true /\
      all_bytes is_space c = true /\ all_bytes is_space d = true /\
      rewriteRange "^0.5.0 || 1.0.0 - 2.0.0"
      = pre ++ (">= " ++ v1 m ++ ", <= " ++ v11 m) ++ post.
Proof.
  eexists. split; [vm_compute; reflexivity|].
  apply rewriteRange_single. vm_compute. reflexivity.
Defined.

(** ** Errors of the constructors *)

(** The error of a loop is the error of one of its items. *)
Lemma for_each_inr {A B : Type} (f : A -> B + error) (l : list A) (e : error) :
  for_each f l = inr e -> exists a, In a l /\ f a = inr e.
Proof.
  induction l as [|a l IH]; simpl; [discriminate|].
  destruct (f a) as [b|e'] eqn:Ea.
  - destruct (for_each f l) as [bs|e'']; [discriminate|].
    intros H. injection H as <-. destruct (IH eq_refl) as [x [Hx Hf]]. eauto.
  - intros H. injection H as <-. eauto.
Qed.

(** The two errors of [parseConstraint], and the three of
    [parseConstraintNu]. *)
Lemma parseConstraint_error (s : string) (e : error) :
  parseConstraint s = inr e ->
  (FindStringSubmatch s = None /\
   e = Errorf "improper constraint: %s" [arg_string s])
  \/ (FindStringSubmatch s <> None /\ e = errors_New "constraint Parser Error").
Proof.
  unfold parseConstraint. destruct (FindStringSubmatch s) as [m|].
  - intros H. right. split; [discriminate|].
    destruct (isX (m3 m)); [|destruct (isX _); [|destruct (isX _)]];
      (destruct (NewVersion _); [discriminate|]); now injection H as <-.
  - intros H. injection H as <-. now left.
Qed.

Lemma parseConstraintNu_error (s : string) (e : error) :
  parseConstraintNu s = inr e ->
  (FindStringSubmatch s = None /\
   e = Errorf "Malformed constraint: %s" [arg_string s])
  \/ (FindStringSubmatch s <> None /\ e = errors_New "constraint Parser Error")
  \/ (option_map m1 (FindStringSubmatch s) = Some op_tildegt /\
      e = Errorf "Unrecognized predicate %q" [arg_string "~>"]).
Proof.
  unfold parseConstraintNu. destruct (FindStringSubmatch s) as [m|].
  - intros H. right.
    destruct (isX (m3 m)); [discriminate|].
    destruct (isX _); [|destruct (isX _)];
      (destruct (NewVersion _) as [a|];
       [ destruct (m1 m) eqn:Ek; simpl in H; try discriminate;
         right; split; [simpl; now rewrite Ek | now injection H as <-]
       | left; split; [discriminate | now injection H as <-] ]).
  - intros H. injection H as <-. now left.
Qed.

(** X6.  An error of [NewConstraint] is the error of one clause of the
    text: either the regexp does not match the clause and the error is
    the improper-constraint error carrying this clause, or the regexp
    matches it and the error is the parser error. *)
Theorem NewConstraint_errors (text : string) (e : error) :
  NewConstraint text = inr e ->
  exists g s,
    In g (clauses text) /\ In s g /\
    ((FindStringSubmatch s = None /\
      e = Errorf "improper constraint: %s" [arg_string s])
     \/ (FindStringSubmatch s <> None /\
         e = errors_New "constraint Parser Error")).
Proof.
  unfold NewConstraint. intros H.
  destruct (for_each _ _) as [or|e'] eqn:E; [discriminate|].
  injection H as ->.
  apply for_each_inr in E. destruct E as [v [Hv E]].
  apply for_each_inr in E. destruct E as [s [Hs E]].
  exists (GoStrings.Split v ","), s. split; [|split; [exact Hs|]].
  - unfold clauses. apply in_map_iff. eauto.
  - now apply parseConstraint_error.
Qed.

Lemma NewConstraint_errors_witness :
  exists e,
    NewConstraint ">=1.0.0, >> 2.0.0" = inr e /\
    exists g s,
      In g (clauses ">=1.0.0, >> 2.0.0") /\ In s g /\
      ((FindStringSubmatch s = None /\
        e = Errorf "improper constraint: %s" [arg_string s])
       \/ (FindStringSubmatch s <> None /\
           e = errors_New "constraint Parser Error")).
Proof.
  eexists. split; [vm_compute; reflexivity|].
  apply NewConstraint_errors. vm_compute. reflexivity.
Defined.

(** X7.  An error of [NewConstraintNu] is the error of one clause of the
    text: the malformed-constraint error carrying the clause when the
    regexp does not match it, and otherwise the parser error, or the
    unrecognized-predicate error for a clause whose operator is [~>],
    which the switch of [parseConstraintNu] does not name. *)
Theorem NewConstraintNu_errors (text : string) (e : error) :
  NewConstraintNu text = inr e ->
  exists g s,
    In g (clauses text) /\ In s g /\
    ((FindStringSubmatch s = None /\
      e = Errorf "Malformed constraint: %s" [arg_string s])
     \/ (FindStringSubmatch s <> None /\
         e = errors_New "constraint Parser Error")
     \/ (option_map m1 (FindStringSubmatch s) = Some op_tildegt /\
         e = Errorf "Unrecognized predicate %q" [arg_string "~>"])).
Proof.
  unfold NewConstraintNu. intros H.
  destruct (for_each _ _) as [or|e'] eqn:E; [discriminate|].
  injection H as ->.
  apply for_each_inr in E. destruct E as [v [Hv E]].
  destruct (for_each parseConstraintNu (GoStrings.Split v ",")) as [ks|e'] eqn:E';
    [discriminate|].
  injection E as ->.
  apply for_each_inr in E'. destruct E' as [s [Hs E']].
  exists (GoStrings.Split v ","), s. split; [|split; [exact Hs|]].
  - unfold clauses. apply in_map_iff. eauto.
  - now apply parseConstraintNu_error.
Qed.

Lemma NewConstraintNu_errors_witness :
  exists e,
    NewConstraintNu "1.0.0 || ~>1.2.3" = inr e /\
    exists g s,
      In g (clauses "1.0.0 || ~>1.2.3") /\ In s g /\
      ((FindStringSubmatch s = None /\
        e = Errorf "Malformed constraint: %s" [arg_string s])
       \/ (FindStringSubmatch s <> None /\
           e = errors_New "constraint Parser Error")
       \/ (option_map m1 (FindStringSubmatch s) = Some op_tildegt /\
           e = Errorf "Unrecognized predicate %q" [arg_string "~>"])).
Proof.
  eexists. split; [vm_compute; reflexivity|].
  apply NewConstraintNu_errors. vm_compute. reflexivity.
Defined.

(** ** The shape of what [NewConstraint] builds *)

(** [strings.Split] returns at least one part. *)
Lemma split_go_nonempty (sep : string) (s : string) :
  forall k acc, GoStrings.split_go sep k acc s <> [].
Proof.
  induction s as [|c s IH]; intros k acc; cbn [GoStrings.split_go];
    [discriminate|].
  destruct k; [|apply IH].
  destruct (GoStrings.HasPrefix (String c s) sep); [intros E; discriminate E|apply IH].
Qed.

Lemma Split_nonempty (s sep : string) : GoStrings.Split s sep <> [].
Proof. apply split_go_nonempty. Qed.

Lemma Forall2_length_eq {A B : Type} (R : A -> B -> Prop) (l : list A) (l' : list B) :
  Forall2 R l l' -> List.length l = List.length l'.
Proof. induction 1; simpl; congruence. Qed.

(** At least one group, and no empty group. *)
Lemma NewConstraint_nonempty (text : string) (cs : Constraints) :
  NewConstraint text = inl cs ->
  constraints cs <> [] /\ Forall (fun o => o <> []) (constraints cs).
Proof.
  unfold NewConstraint. intros H.
  destruct (for_each _ _) as [or|e] eqn:E; [|discriminate].
  injection H as <-. cbn [constraints].
  apply for_each_Forall2 in E.
  assert (Hne : GoStrings.Split (rewriteRange text) "||" <> [])
    by apply Split_nonempty.
  split.
  - intros ->. inversion E. congruence.
  - clear Hne. induction E as [|v o vs os Hv _ IH]; constructor; [|exact IH].
    apply for_each_Forall2 in Hv. intros ->. inversion Hv as [Hs|].
    symmetry in Hs. now apply Split_nonempty in Hs.
Qed.

(** X8.  The constraints that [NewConstraint] builds have at least one
    group, no group is empty, and the groups have as many clauses as the
    parts of the text between the double bars have parts between the
    commas. *)
Theorem NewConstraint_shape (text : string) (cs : Constraints) :
  NewConstraint text = inl cs ->
  constraints cs <> [] /\
  Forall (fun o => o <> []) (constraints cs) /\
  map (@List.length constraint) (constraints cs)
  = map (@List.length string) (clauses text).
Proof.
  intros H. destruct (NewConstraint_nonempty text cs H) as [Hne Hall].
  split; [exact Hne|]. split; [exact Hall|]. clear Hne Hall.
  unfold NewConstraint, clauses in *.
  destruct (for_each _ _) as [or|e] eqn:E; [|discriminate].
  injection H as <-. cbn [constraints].
  apply for_each_Forall2 in E.
  induction E as [|v o vs os Hv _ IH]; simpl; [reflexivity|].
  rewrite IH. f_equal. apply for_each_Forall2 in Hv.
  symmetry. eapply Forall2_length_eq; eauto.
Qed.

Lemma NewConstraint_shape_witness :
  exists cs,
    NewConstraint "1.2.3 || 2.x, !=2.1.0" = inl cs /\
    constraints cs <> [] /\
    Forall (fun o => o <> []) (constraints cs) /\
    map (@List.length constraint) (constraints cs)
    = map (@List.length string) (clauses "1.2.3 || 2.x, !=2.1.0").
Proof.
  eexists. split; [vm_compute; reflexivity|].
  apply NewConstraint_shape. vm_compute. reflexivity.
Defined.

(** ** Evaluation after evaluation *)

(** A clause that differs from another by the message that
    [constraintTildeOrEqual] writes checks as the other does. *)
Lemma check_framed (c c' : constraint) (v : Version) :
  frame c c' -> check c' v = check c v.
Proof.
  intros [->|[Hf [Hd ->]]]; [reflexivity|].
  unfold check. cbn [function set_msg]. rewrite Hf. cbn [call].
  unfold constraintTildeOrEqual. cbn [dirty set_msg]. rewrite Hd.
  reflexivity.
Qed.

(** Checking a clause again leaves it as the first check left it. *)
Lemma check_again (c : constraint) (v : Version) :
  check (snd (check c v)) v = check c v.
Proof.
  pose proof (check_frame c v) as H.
  destruct H as [E|[Hf [Hd E]]].
  - now rewrite E.
  - rewrite E. unfold check. cbn [function set_msg]. rewrite Hf. cbn [call].
    unfold constraintTildeOrEqual. cbn [dirty set_msg]. rewrite Hd.
    reflexivity.
Qed.

Lemma group_framed (v : Version) (o o' : constraintGroup) :
  Forall2 frame o o' ->
  group_holds v o' = group_holds v o /\ failures v o' = failures v o.
Proof.
  unfold group_holds, failures.
  induction 1 as [|c c' o o' Hc _ [IH1 IH2]]; [split; reflexivity|].
  assert (Hr : reason v c' = reason v c)
    by (unfold reason; now rewrite (check_framed c c' v Hc)).
  cbn [forallb filter]. rewrite (check_framed c c' v Hc), IH1.
  split; [reflexivity|].
  destruct (fst (check c v)); cbn [negb map]; [exact IH2|now rewrite Hr, IH2].
Qed.

Lemma groups_framed (v : Version) (gs gs' : list constraintGroup) :
  Forall2 (Forall2 frame) gs gs' ->
  some_group_holds v gs' = some_group_holds v gs /\
  flat_map (failures v) gs' = flat_map (failures v) gs.
Proof.
  unfold some_group_holds.
  induction 1 as [|o o' gs gs' Ho _ [IH1 IH2]]; [split; reflexivity|].
  destruct (group_framed v o o' Ho) as [E1 E2].
  simpl. now rewrite E1, E2, IH1, IH2.
Qed.

(** The results of [Validate], by cases on the groups. *)
Lemma Validate_fst (cs : Constraints) (v : Version) :
  fst (Validate cs v) =
  if some_group_holds v (constraints cs) then (true, [])
  else (false, flat_map (failures v) (constraints cs)).
Proof.
  unfold Validate.
  pose proof (validate_groups_spec v (constraints cs) []) as Hs.
  destruct (validate_groups v (constraints cs) []) as [[r e] gs].
  exact Hs.
Qed.

(** X9.  On constraints built by [NewConstraint], a validation that
    fails comes with at least one reason. *)
Theorem Validate_false_has_reason (text : string) (cs : Constraints) (v : Version) :
  NewConstraint text = inl cs ->
  fst (fst (Validate cs v)) = false ->
  snd (fst (Validate cs v)) <> [].
Proof.
  intros Hcs. destruct (NewConstraint_nonempty text cs Hcs) as [Hne Hall].
  rewrite (Validate_fst cs v).
  destruct (some_group_holds v (constraints cs)) eqn:Eh; [discriminate|].
  intros _. cbn [snd].
  destruct (constraints cs) as [|o gs]; [congruence|].
  simpl in Eh. apply orb_false_iff in Eh. destruct Eh as [Eo _].
  inversion Hall as [|? ? Ho _]; subst.
  simpl. intros Hnil. apply app_eq_nil in Hnil. destruct Hnil as [Hf _].
  unfold failures in Hf. apply map_eq_nil in Hf.
  unfold group_holds in Eo.
  assert (Hex : exists c, In c o /\ fst (check c v) = false).
  { clear - Eo. induction o as [|c o IH]; [discriminate|].
    simpl in Eo. destruct (fst (check c v)) eqn:Ec.
    - destruct (IH Eo) as [x [Hx Hf]]. exists x. split; [now right|exact Hf].
    - exists c. split; [now left|exact Ec]. }
  destruct Hex as [c [Hc Hf']].
  assert (Hin : In c (filter (fun c => negb (fst (check c v))) o))
    by (apply filter_In; split; [exact Hc|now rewrite Hf']).
  rewrite Hf in Hin. destruct Hin.
Qed.

Lemma Validate_false_has_reason_witness :
  exists cs,
    NewConstraint "1.2.3 || 2.x, !=2.1.0" = inl cs /\
    fst (fst (Validate cs (release 2 1 0))) = false /\
    snd (fst (Validate cs (release 2 1 0))) <> [].
Proof.
  eexists. split; [vm_compute; reflexivity|].
  split; [vm_compute; reflexivity|].
  apply (Validate_false_has_reason "1.2.3 || 2.x, !=2.1.0");
    vm_compute; reflexivity.
Defined.

Lemma Check_framed (cs : Constraints) (w : Version) :
  Forall2 (Forall2 frame) (constraints cs) (constraints (snd (Check cs w))).
Proof.
  unfold Check. pose proof (check_groups_frame w (constraints cs)) as H.
  destruct (check_groups w (constraints cs)) as [r gs]. exact H.
Qed.

Lemma Validate_framed (cs : Constraints) (w : Version) :
  Forall2 (Forall2 frame) (constraints cs) (constraints (snd (Validate cs w))).
Proof.
  unfold Validate.
  pose proof (validate_groups_frame w (constraints cs) []) as H.
  destruct (validate_groups w (constraints cs) []) as [[r e] gs]. exact H.
Qed.

Lemma check_group_again (v : Version) (o : constraintGroup) :
  check_group v (snd (check_group v o)) = check_group v o.
Proof.
  induction o as [|c o IH]; [reflexivity|].
  cbn [check_group]. pose proof (check_again c v) as Hc.
  destruct (check c v) as [ok c'] eqn:Ec. cbn [snd] in Hc.
  destruct ok.
  - destruct (check_group v o) as [joy o''] eqn:Eo. cbn [snd] in IH |- *.
    cbn [check_group]. now rewrite Hc, IH.
  - cbn [snd check_group]. now rewrite Hc.
Qed.

Lemma check_groups_again (v : Version) (gs : list constraintGroup) :
  check_groups v (snd (check_groups v gs)) = check_groups v gs.
Proof.
  induction gs as [|o gs IH]; [reflexivity|].
  cbn [check_groups]. pose proof (check_group_again v o) as Ho.
  destruct (check_group v o) as [joy o'] eqn:Eo. cbn [snd] in Ho.
  destruct joy.
  - cbn [snd check_groups]. now rewrite Ho.
  - destruct (check_groups v gs) as [r gs''] eqn:Eg. cbn [snd] in IH |- *.
    cbn [check_groups]. now rewrite Ho, IH.
Qed.

(** X10.  What an evaluation writes into the clauses does not show in a
    later evaluation: after [Check] or [Validate] at any version, [Check]
    and [Validate] return what they return on the constraints as built,
    and checking the same version again leaves the constraints as the
    first check left them. *)
Theorem evaluation_repeatable (cs : Constraints) (v w : Version) :
  fst (Check (snd (Check cs w)) v) = fst (Check cs v)
  /\ fst (Check (snd (Validate cs w)) v) = fst (Check cs v)
  /\ fst (Validate (snd (Check cs w)) v) = fst (Validate cs v)
  /\ fst (Validate (snd (Validate cs w)) v) = fst (Validate cs v)
  /\ Check (snd (Check cs v)) v = Check cs v.
Proof.
  destruct (groups_framed v _ _ (Check_framed cs w)) as [C1 C2].
  destruct (groups_framed v _ _ (Validate_framed cs w)) as [V1 V2].
  rewrite !Check_fst, !Validate_fst, C1, C2, V1, V2.
  repeat split; try reflexivity.
  unfold Check. pose proof (check_groups_again v (constraints cs)) as H.
  destruct (check_groups v (constraints cs)) as [r gs]. cbn [snd constraints] in *.
  now rewrite H.
Qed.

(** ** What the two constructors accept *)

(** A loop succeeds exactly when each of its items does. *)
Lemma for_each_all {A B : Type} (f : A -> B + error) (l : list A) :
  (forall a, In a l -> exists b, f a = inl b) -> exists bs, for_each f l = inl bs.
Proof.
  induction l as [|a l IH]; intros H; simpl; [eauto|].
  destruct (H a (or_introl eq_refl)) as [b ->].
  destruct IH as [bs ->]; [intros x Hx; apply H; now right|]. eauto.
Qed.

Lemma for_each_each {A B : Type} (f : A -> B + error) (l : list A) (bs : list B) :
  for_each f l = inl bs -> forall a, In a l -> exists b, In b bs /\ f a = inl b.
Proof.
  intros H. apply for_each_Forall2 in H.
  induction H as [|a b l bs Hab _ IH]; intros x [].
  - subst. exists b. split; [now left|exact Hab].
  - destruct (IH x H) as [y [Hy Hf]]. exists y. split; [now right|exact Hf].
Qed.

(** What each parser accepts, in terms of the regexp and of
    [NewVersion]. *)
Lemma parseConstraintNu_accepted (s : string) (k : Constraint) :
  parseConstraintNu s = inl k -> exists c, parseConstraint s = inl c.
Proof.
  unfold parseConstraintNu, parseConstraint.
  destruct (FindStringSubmatch s) as [m|]; [|discriminate].
  destruct (isX (m3 m)).
  - intros _. assert (E : NewVersion "0.0.0" = Some (release 0 0 0))
      by (vm_compute; reflexivity).
    rewrite E. eauto.
  - destruct (isX _); [|destruct (isX _)];
      (destruct (NewVersion _); [eauto|discriminate]).
Qed.

Lemma parseConstraint_accepted (s : string) (c : constraint) :
  parseConstraint s = inl c ->
  (predicate c =? "~>") = false ->
  exists k, parseConstraintNu s = inl k.
Proof.
  unfold parseConstraintNu, parseConstraint.
  destruct (FindStringSubmatch s) as [m|]; [|discriminate].
  destruct (isX (m3 m)); [eauto|].
  destruct (isX _); [|destruct (isX _)];
    (destruct (NewVersion _); [|discriminate]);
    intros H Hp; injection H as <-; cbn [predicate] in Hp;
    destruct (m1 m); try discriminate; cbn; eauto.
Qed.

(** X11.  A text that [NewConstraintNu] accepts is accepted by
    [NewConstraint]; a text that [NewConstraint] accepts is accepted by
    [NewConstraintNu] when none of its clauses has the operator [~>]. *)
Theorem constructors_accept (text : string) :
  (forall k, NewConstraintNu text = inl k ->
             exists cs, NewConstraint text = inl cs)
  /\ (forall cs, NewConstraint text = inl cs ->
        forallb (forallb (fun c => negb (predicate c =? "~>"))) (constraints cs)
        = true ->
        exists k, NewConstraintNu text = inl k).
Proof.
  unfold NewConstraintNu, NewConstraint. split.
  - intros k H.
    destruct (for_each _ _) as [or|] eqn:E in H; [|discriminate].
    destruct (for_each_all
                (fun v => for_each parseConstraint (GoStrings.Split v ","))
                (GoStrings.Split (rewriteRange text) "||")) as [gs ->]; [|eauto].
    intros v Hv. destruct (for_each_each _ _ _ E v Hv) as [b [_ Hb]].
    destruct (for_each parseConstraintNu (GoStrings.Split v ",")) as [ks|] eqn:Ek;
      [|discriminate].
    apply for_each_all. intros s Hs.
    destruct (for_each_each _ _ _ Ek s Hs) as [k' [_ Hk']].
    eapply parseConstraintNu_accepted; eauto.
  - intros cs H Hp.
    destruct (for_each _ _) as [gs|] eqn:E in H; [|discriminate].
    injection H as <-. cbn [constraints] in Hp.
    destruct (for_each_all
                (fun v =>
                   match for_each parseConstraintNu (GoStrings.Split v ",") with
                   | inr err => inr err
                   | inl result => inl (Intersection result)
                   end)
                (GoStrings.Split (rewriteRange text) "||")) as [ks ->]; [|eauto].
    intros v Hv. destruct (for_each_each _ _ _ E v Hv) as [o [Ho Hb]].
    destruct (for_each_all parseConstraintNu (GoStrings.Split v ",")) as [r ->];
      [|eauto].
    intros s Hs. destruct (for_each_each _ _ _ Hb s Hs) as [c [Hc Hpc]].
    apply (parseConstraint_accepted s c Hpc).
    rewrite forallb_forall in Hp. specialize (Hp o Ho).
    rewrite forallb_forall in Hp. specialize (Hp c Hc).
    now apply negb_true_iff in Hp.
Qed.

Lemma constructors_accept_witness :
  exists cs,
    NewConstraint ">=1.2.0, <2.0.0 || ^3.1.4" = inl cs /\
    forallb (forallb (fun c => negb (predicate c =? "~>"))) (constraints cs)
    = true /\
    exists k, NewConstraintNu ">=1.2.0, <2.0.0 || ^3.1.4" = inl k.
Proof.
  eexists. split; [vm_compute; reflexivity|].
  split; [vm_compute; reflexivity|].
  eapply (proj2 (constructors_accept ">=1.2.0, <2.0.0 || ^3.1.4"));
    vm_compute; reflexivity.
Defined.

(** ** The order of groups and clauses *)

(** Conjunction and disjunction along a list do not depend on its
    order. *)
Lemma forallb_Permutation {A : Type} (f : A -> bool) (l l' : list A) :
  Permutation l l' -> forallb f l = forallb f l'.
Proof.
  induction 1 as [|x l l' _ IH|x y l|l l' l'' _ IH1 _ IH2]; simpl.
  - reflexivity.
  - now rewrite IH.
  - now destruct (f x), (f y).
  - congruence.
Qed.

Lemma existsb_Permutation {A : Type} (f : A -> bool) (l l' : list A) :
  Permutation l l' -> existsb f l = existsb f l'.
Proof.
  induction 1 as [|x l l' _ IH|x y l|l l' l'' _ IH1 _ IH2]; simpl.
  - reflexivity.
  - now rewrite IH.
  - now destruct (f x), (f y).
  - congruence.
Qed.

Lemma some_group_holds_permuted (v : Version) (gs gs1 : list constraintGroup) :
  Forall2 (@Permutation constraint) gs gs1 ->
  some_group_holds v gs = some_group_holds v gs1.
Proof.
  unfold some_group_holds.
  induction 1 as [|o o' gs gs' Ho _ IH]; [reflexivity|].
  simpl. rewrite IH. f_equal. unfold group_holds.
  now apply forallb_Permutation.
Qed.

(** X12.  The boolean of [Check] and of [Validate] depends neither on the
    order of the clauses in a group nor on the order of the groups. *)
Theorem Check_any_order (cs cs1 cs2 : Constraints) (v : Version) :
  Forall2 (@Permutation constraint) (constraints cs) (constraints cs1) ->
  Permutation (constraints cs1) (constraints cs2) ->
  fst (Check cs v) = fst (Check cs2 v)
  /\ fst (fst (Validate cs v)) = fst (fst (Validate cs2 v)).
Proof.
  intros H1 H2.
  assert (E : some_group_holds v (constraints cs)
              = some_group_holds v (constraints cs2)).
  { rewrite (some_group_holds_permuted v _ _ H1). unfold some_group_holds.
    now apply existsb_Permutation. }
  rewrite !Check_fst, !Validate_fst, E.
  split; [reflexivity|]. now destruct (some_group_holds v (constraints cs2)).
Qed.

Lemma Check_any_order_witness :
  Forall2 (@Permutation constraint)
    [[tilde_1_2_3; neq_1_2_x]; [lt_1_x]] [[neq_1_2_x; tilde_1_2_3]; [lt_1_x]] /\
  Permutation [[neq_1_2_x; tilde_1_2_3]; [lt_1_x]]
              [[lt_1_x]; [neq_1_2_x; tilde_1_2_3]] /\
  fst (Check {| constraints := [[tilde_1_2_3; neq_1_2_x]; [lt_1_x]] |}
         (release 1 2 9))
  = fst (Check {| constraints := [[lt_1_x]; [neq_1_2_x; tilde_1_2_3]] |}
           (release 1 2 9))
  /\ fst (fst (Validate {| constraints := [[tilde_1_2_3; neq_1_2_x]; [lt_1_x]] |}
                 (release 1 2 9)))
     = fst (fst (Validate {| constraints := [[lt_1_x]; [neq_1_2_x; tilde_1_2_3]] |}
                   (release 1 2 9))).
Proof.
  assert (H1 : Forall2 (@Permutation constraint)
    [[tilde_1_2_3; neq_1_2_x]; [lt_1_x]] [[neq_1_2_x; tilde_1_2_3]; [lt_1_x]]).
  { constructor; [apply perm_swap|].
    constructor; [apply Permutation_refl|constructor]. }
  assert (H2 : Permutation [[neq_1_2_x; tilde_1_2_3]; [lt_1_x]]
                           [[lt_1_x]; [neq_1_2_x; tilde_1_2_3]])
    by apply perm_swap.
  split; [exact H1|]. split; [exact H2|].
  exact (Check_any_order
           {| constraints := [[tilde_1_2_3; neq_1_2_x]; [lt_1_x]] |}
           {| constraints := [[neq_1_2_x; tilde_1_2_3]; [lt_1_x]] |}
           {| constraints := [[lt_1_x]; [neq_1_2_x; tilde_1_2_3]] |}
           (release 1 2 9) H1 H2).
Defined.

(** ** Greater-than clauses in the two pipelines *)

(** X13.  For a clause whose operator is one of [>], [>=] and [=>] the
    two pipelines agree at every version, with or without prerelease
    tag, unless the major of the clause is a wildcard, where
    [parseConstraintNu] returns [any]. *)
Theorem greater_agree (s : string) (c : constraint) (k : Constraint) (w : Version) :
  parseConstraint s = inl c ->
  parseConstraintNu s = inl k ->
  is_any k = false ->
  (function c = fn_constraintGreaterThan \/
   function c = fn_constraintGreaterThanEqual) ->
  fst (check c w) = Satisfies k w.
Proof.
  unfold parseConstraint, parseConstraintNu.
  destruct (FindStringSubmatch s) as [m|]; [|discriminate].
  destruct (isX (m3 m)).
  { intros _ H. injection H as <-. discriminate. }
  destruct (isX _); [|destruct (isX _)];
    (destruct (NewVersion _) as [a|]; [|discriminate]);
    intros Hc Hk _ Hf; injection Hc as <-; cbn [function] in Hf;
    unfold check; cbn [function];
    destruct (m1 m); cbn in Hf, Hk;
    try (destruct Hf; discriminate); injection Hk as <-; cbn;
    unfold constraintGreaterThan, constraintGreaterThanEqual, satisfiesRange,
      GreaterThan, Equal; cbn; split_Compare; reflexivity.
Qed.

Lemma greater_agree_witness :
  exists c k,
    parseConstraint ">1.x" = inl c /\ parseConstraintNu ">1.x" = inl k /\
    is_any k = false /\
    (function c = fn_constraintGreaterThan
     \/ function c = fn_constraintGreaterThanEqual) /\
    fst (check c (release 1 5 0)) = Satisfies k (release 1 5 0).
Proof.
  eexists. eexists.
  split; [vm_compute; reflexivity|]. split; [vm_compute; reflexivity|].
  split; [vm_compute; reflexivity|]. split; [left; reflexivity|].
  apply (greater_agree ">1.x");
    [vm_compute; reflexivity|vm_compute; reflexivity|vm_compute; reflexivity
    |left; reflexivity].
Defined.

(** ** Less-than clauses with a wildcard, legacy *)

(** [constraintLessThan] with a wildcard, at a release version. *)
Lemma constraintLessThan_dirty (c : constraint) (w : Version) :
  dirty c = true ->
  prerelease w = "" ->
  (constraintLessThan w c = true <->
   (Compare w (release (major (con c) + 1) 0 0) < 0)%Z /\
   (minorDirty c = true \/ (minor w <= minor (con c))%N)).
Proof.
  intros Hd Hw. unfold constraintLessThan.
  rewrite Hd. cbn [negb].
  rewrite (Compare_lt_release _ _ Hw). unfold below, release, Major, Minor.
  cbn [major minor patch].
  destruct (N.ltb_spec (major (con c)) (major w));
    destruct (N.ltb_spec (minor (con c)) (minor w));
    destruct (minorDirty c); cbn; intuition (try discriminate; try lia).
Qed.



(** ** [isX] *)

(** X15.  [isX] holds of the three texts [x], [X] and [*], and of no
    other text; in particular not of the empty text. *)
Theorem isX_tokens (x : string) :
  isX x = true <-> x = "x" \/ x = "X" \/ x = "*".
Proof.
  unfold isX. destruct x as [|c [|c' x]].
  - cbn. intuition discriminate.
  - destruct c as [[] [] [] [] [] [] [] []]; vm_compute;
      intuition (try discriminate; try reflexivity).
  - cbn [GoStrings.ToLower]. split.
    + intros H. exfalso. apply orb_true_iff in H.
      destruct H as [H|H]; apply String.eqb_eq in H; discriminate.
    + intros [H|[H|H]]; discriminate.
Qed.

(** ** Less-than clauses with a wildcard minor in the two pipelines *)

(** X16.  For a less-than clause with a wildcard minor, at a release
    version: with [<] the range of [expandLess] and [constraintLessThan]
    agree; with [<=] the range of [expandLess] holds one version more
    than [constraintLessThanEqual], the next major of the anchor. *)
Theorem less_wildcard_minor_pipelines (c : constraint) (w : Version) :
  dirty c = true -> minorDirty c = true -> zero_filled c = true ->
  prerelease w = "" ->
  Satisfies (expandLess (con c) true true false) w = constraintLessThan w c
  /\ Satisfies (expandLess (con c) true true true) w
     = constraintLessThanEqual w c
       || Equal w (release (major (con c) + 1) 0 0).
Proof.
  intros Hd Hm Hz Hw. unfold zero_filled in Hz. rewrite Hd, Hm in Hz.
  apply andb_true_iff in Hz. destruct Hz as [Hp Hmi].
  apply N.eqb_eq in Hp. apply N.eqb_eq in Hmi.
  pose proof (constraintLessThan_dirty c w Hd Hw) as Hlt.
  assert (Heq : constraintLessThan w c = constraintLessThanEqual w c)
    by (unfold constraintLessThan, constraintLessThanEqual; now rewrite Hd).
  rewrite <- Heq.
  unfold expandLess. cbn [Satisfies]. unfold satisfiesRange.
  cbn [min max includeMin includeMax excl existsb negb major minor patch
       prerelease build andb].
  rewrite Hp, Hmi.
  change {| major := major (con c) + 1; minor := 0; patch := 0;
            prerelease := ""; build := "" |}
    with (release (major (con c) + 1) 0 0).
  rewrite !andb_true_r, orb_false_r.
  assert (E : LessThan w (release (major (con c) + 1) 0 0)
              = constraintLessThan w c).
  { apply bool_eq_iff. rewrite Hlt. unfold LessThan. rewrite Z.ltb_lt.
    intuition. }
  now rewrite E.
Qed.

Lemma less_wildcard_minor_pipelines_witness :
  dirty lt_1_x = true /\ minorDirty lt_1_x = true /\
  zero_filled lt_1_x = true /\ prerelease (release 1 5 0) = "" /\
  Satisfies (expandLess (con lt_1_x) true true false) (release 1 5 0)
  = constraintLessThan (release 1 5 0) lt_1_x
  /\ Satisfies (expandLess (con lt_1_x) true true true) (release 1 5 0)
     = constraintLessThanEqual (release 1 5 0) lt_1_x
       || Equal (release 1 5 0) (release (major (con lt_1_x) + 1) 0 0).
Proof.
  split; [reflexivity|]. split; [reflexivity|]. split; [reflexivity|].
  split; [reflexivity|].
  exact (less_wildcard_minor_pipelines lt_1_x (release 1 5 0)
           eq_refl eq_refl eq_refl eq_refl).
Defined.

(** ** A clause the regexp does not match *)

(** X17.  A clause that the regexp does not match makes both
    constructors fail, wherever it stands in the text. *)
Theorem unmatched_clause_rejected (text : string) (g : list string) (s : string) :
  In g (clauses text) -> In s g -> FindStringSubmatch s = None ->
  (exists e, NewConstraint text = inr e)
  /\ (exists e, NewConstraintNu text = inr e).
Proof.
  intros Hg Hs Hm. split; [exact (NewConstraint_fails text g s Hg Hs Hm)|].
  unfold NewConstraintNu. unfold clauses in Hg.
  apply in_map_iff in Hg. destruct Hg as [v [<- Hv]].
  destruct (for_each_error
              (fun v =>
                 match for_each parseConstraintNu (GoStrings.Split v ",") with
                 | inr err => inr err
                 | inl result => inl (Intersection result)
                 end) _ v Hv) as [err Herr].
  - destruct (for_each_error parseConstraintNu _ s Hs) as [err Herr].
    + unfold parseConstraintNu. rewrite Hm. eauto.
    + rewrite Herr. eauto.
  - rewrite Herr. eauto.
Qed.

Lemma unmatched_clause_rejected_witness :
  In ["2.x"; ">>3"] (clauses "1.0.0||2.x,>>3") /\
  In ">>3" ["2.x"; ">>3"] /\
  FindStringSubmatch ">>3" = None /\
  (exists e, NewConstraint "1.0.0||2.x,>>3" = inr e)
  /\ (exists e, NewConstraintNu "1.0.0||2.x,>>3" = inr e).
Proof.
  split; [vm_compute; auto|]. split; [vm_compute; auto|].
  split; [vm_compute; reflexivity|].
  apply (unmatched_clause_rejected "1.0.0||2.x,>>3" ["2.x"; ">>3"] ">>3").
  - vm_compute. auto.
  - vm_compute. auto.
  - vm_compute. reflexivity.
Defined.

(** ** The clause that [parseConstraint] builds *)

(** X18.  In a clause built by [parseConstraint], the function and the
    message are those that [constraintOps] and [constraintMsg] give for
    the operator kept in [predicate]; a wildcard minor makes the clause
    dirty; and the anchor of a clause without wildcard is the version
    that the text kept in [orig] denotes. *)
Theorem parseConstraint_clause (s : string) (c : constraint) :
  parseConstraint s = inl c ->
  (exists k, predicate c = op_text k /\ function c = constraintOps k
             /\ msg c = constraintMsg k)
  /\ (minorDirty c = true -> dirty c = true)
  /\ (dirty c = false -> NewVersion (orig c) = Some (con c)).
Proof.
  unfold parseConstraint. destruct (FindStringSubmatch s) as [m|];
    [|discriminate].
  destruct (isX (m3 m)); [|destruct (isX _); [|destruct (isX _)]];
    (destruct (NewVersion _) as [w|] eqn:Ew; [|discriminate]);
    intros H; injection H as <-; cbn [predicate function msg minorDirty dirty
                                       orig con];
    (split; [exists (m1 m); auto|split; [auto|try discriminate]]).
  intros _. exact Ew.
Qed.

Lemma parseConstraint_clause_witness :
  exists c,
    parseConstraint "~1.2.3" = inl c /\
    (exists k, predicate c = op_text k /\ function c = constraintOps k
               /\ msg c = constraintMsg k)
    /\ (minorDirty c = true -> dirty c = true)
    /\ (dirty c = false -> NewVersion (orig c) = Some (con c)).
Proof.
  eexists. split; [vm_compute; reflexivity|].
  apply (parseConstraint_clause "~1.2.3"). vm_compute. reflexivity.
Defined.

(** * The two pipelines, clause by clause *)

(** ** Zero for a wildcard

    The version text that the parsers build for a clause with a wildcard
    holds 0 where the wildcard and what follows it stood, and [NewVersion]
    reads these positions as 0. *)

Lemma all_bytes_impl (p q : ascii -> bool) (x : string) :
  (forall c, p c = true -> q c = true) ->
  all_bytes p x = true -> all_bytes q x = true.
Proof.
  intros H. induction x as [|c x IH]; simpl; [reflexivity|].
  intros Hx. apply andb_true_iff in Hx. destruct Hx as [Hc Hx].
  now rewrite (H c Hc), IH.
Qed.

(** Component bytes and digits are no separators. *)
Lemma is_cv_no_sep (c : ascii) : is_cv c = true -> negb (is_sep c) = true.
Proof.
  destruct c as [[] [] [] [] [] [] [] []]; vm_compute; intros H;
    first [reflexivity | discriminate H].
Qed.

Lemma is_digit_cv (c : ascii) : is_digit c = true -> is_cv c = true.
Proof. intros H. unfold is_cv. now rewrite H. Qed.

Lemma cv_no_sep (x : string) : all_bytes is_cv x = true -> no_sep x = true.
Proof. apply all_bytes_impl, is_cv_no_sep. Qed.

Lemma digits_no_sep (x : string) : all_bytes is_digit x = true -> no_sep x = true.
Proof.
  intros H. apply cv_no_sep. revert H. apply all_bytes_impl, is_digit_cv.
Qed.

(** Two runs without separator, each followed by nothing or by a
    separator, are the same run when the texts are the same. *)
Lemma align (x x' r r' : string) :
  no_sep x = true -> no_sep x' = true ->
  sep_head r = true -> sep_head r' = true ->
  x ++ r = x' ++ r' -> x = x' /\ r = r'.
Proof.
  revert x'. induction x as [|c x IH]; intros [|c' x'] Hx Hx' Hr Hr' E;
    simpl in *.
  - auto.
  - subst r. simpl in Hr. apply andb_true_iff in Hx'. destruct Hx' as [Hc _].
    rewrite Hr in Hc. discriminate.
  - subst r'. simpl in Hr'. apply andb_true_iff in Hx. destruct Hx as [Hc _].
    rewrite Hr' in Hc. discriminate.
  - injection E as -> E.
    apply andb_true_iff in Hx. apply andb_true_iff in Hx'.
    destruct (IH x' (proj2 Hx) (proj2 Hx') Hr Hr' E) as [-> ->]. auto.
Qed.

(** Parts that are empty or start with a separator, joined. *)
Lemma sep_head_app (a b : string) :
  sep_head a = true -> sep_head b = true -> sep_head (a ++ b) = true.
Proof. destruct a; simpl; auto. Qed.

(** What the parts of the version pattern look like. *)
Lemma plus_shape (cls : ascii -> bool) (s t r : string) :
  In (t, r) (plus cls s) -> all_bytes cls t = true /\ t <> "".
Proof.
  unfold plus. intros H.
  apply in_bind in H. destruct H as [c [s1 [Hc H]]].
  apply in_bind in H. destruct H as [u [s2 [Hu H]]].
  destruct H as [H|[]]. injection H as <- <-.
  apply star_all in Hu.
  unfold chr in Hc. destruct s as [|b s]; [destruct Hc|].
  destruct (cls b) eqn:Eb; [|destruct Hc].
  destruct Hc as [Hc|[]]. injection Hc as <- <-.
  simpl. rewrite Eb, Hu. split; [reflexivity|discriminate].
Qed.

(** A literal returns its text. *)
Lemma lit_text (t s h r : string) : In (h, r) (lit t s) -> h = t.
Proof.
  unfold lit. destruct (GoStrings.HasPrefix s t); [|intros []].
  intros [H|[]]. now injection H as <- <-.
Qed.

(** An optional dot and component, and an optional tag. *)
Lemma dot_part_shape (comp : ascii -> bool) (s t r : string) :
  In (t, r) (opt (d <- lit "." ;; c <- plus comp ;; ret (d ++ c)) s) ->
  t = "" \/
  exists x, t = String "." x /\ all_bytes comp x = true /\ x <> "".
Proof.
  unfold opt, alt. intros H. apply in_app_or in H. destruct H as [H|[H|[]]].
  - right.
    apply in_bind in H. destruct H as [d [s1 [Hd H]]].
    apply in_bind in H. destruct H as [c [s2 [Hc H]]].
    destruct H as [H|[]]. injection H as <- <-.
    apply lit_text in Hd. subst d. apply plus_shape in Hc.
    exists c. simpl. tauto.
  - left. now injection H as <- <-.
Qed.

Lemma tag_part_shape (h : ascii) (s t r : string) :
  In (t, r) (opt (d <- lit (String h "") ;; i <- idents ;; ret (d ++ i)) s) ->
  t = "" \/ exists i, t = String h i.
Proof.
  unfold opt, alt. intros H. apply in_app_or in H. destruct H as [H|[H|[]]].
  - right.
    apply in_bind in H. destruct H as [d [s1 [Hd H]]].
    apply in_bind in H. destruct H as [i [s2 [Hi H]]].
    destruct H as [H|[]]. injection H as <- <-.
    apply lit_text in Hd. subst d. exists i. reflexivity.
  - left. now injection H as <- <-.
Qed.

(** The parts of a match of the version pattern. *)
Lemma version_pattern_parts (comp : ascii -> bool) (s : string) (m : cvMatch) (r : string) :
  In (m, r) (version_pattern comp s) ->
  exists v,
    s = (v ++ cv_major m ++ cv_minor m ++ cv_patch m ++ cv_pre m ++ cv_build m) ++ r /\
    cv_text m = v ++ cv_major m ++ cv_minor m ++ cv_patch m ++ cv_pre m ++ cv_build m /\
    (v = "" \/ v = "v") /\
    (all_bytes comp (cv_major m) = true /\ cv_major m <> "") /\
    (cv_minor m = "" \/
     exists x, cv_minor m = String "." x /\ all_bytes comp x = true /\ x <> "") /\
    (cv_patch m = "" \/
     exists x, cv_patch m = String "." x /\ all_bytes comp x = true /\ x <> "") /\
    (cv_pre m = "" \/ exists i, cv_pre m = String "-" i) /\
    (cv_build m = "" \/ exists i, cv_build m = String "+" i).
Proof.
  intros H. pose proof (exact_version_pattern comp s m r H) as [Es _].
  unfold version_pattern in H.
  apply in_bind in H. destruct H as [v [s1 [Hv H]]].
  apply in_bind in H. destruct H as [ma [s2 [Hma H]]].
  apply in_bind in H. destruct H as [mi [s3 [Hmi H]]].
  apply in_bind in H. destruct H as [pa [s4 [Hpa H]]].
  apply in_bind in H. destruct H as [pr [s5 [Hpr H]]].
  apply in_bind in H. destruct H as [bu [s6 [Hbu H]]].
  destruct H as [H|[]]. injection H as <- <-.
  cbn [cv_text cv_major cv_minor cv_patch cv_pre cv_build] in *.
  exists v. split; [exact Es|]. split; [reflexivity|].
  split.
  { unfold opt, alt in Hv. apply in_app_or in Hv. destruct Hv as [Hv|[Hv|[]]].
    - right. now apply lit_text in Hv.
    - left. now injection Hv as <- <-. }
  split; [now apply plus_shape in Hma|].
  split; [now apply dot_part_shape in Hmi|].
  split; [now apply dot_part_shape in Hpa|].
  split; [now apply (tag_part_shape "-") in Hpr|].
  now apply (tag_part_shape "+") in Hbu.
Qed.

(** The groups of the clause regexp. *)
Lemma submatch_parts (s : string) (m : submatch) :
  FindStringSubmatch s = Some m ->
  (all_bytes is_cv (m3 m) = true /\ m3 m <> "") /\
  (m4 m = "" \/
   exists x, m4 m = String "." x /\ all_bytes is_cv x = true /\ x <> "") /\
  (m6 m = "" \/ exists i, m6 m = String "-" i).
Proof.
  unfold FindStringSubmatch. intros H. apply first_full_In in H.
  unfold constraintRegex, constraintRegex_in in H.
  apply in_bind in H. destruct H as [a [s1 [Ha H]]].
  apply in_bind in H. destruct H as [k [s2 [Hk H]]].
  unfold clause_tail in H.
  apply in_bind in H. destruct H as [b [s3 [Hb H]]].
  apply in_bind in H. destruct H as [cv [s4 [Hcv H]]].
  apply in_bind in H. destruct H as [d [s5 [Hd H]]].
  destruct H as [H|[]]. injection H as <- _.
  cbn [m3 m4 m6].
  apply version_pattern_parts in Hcv.
  destruct Hcv as [v [_ [_ [_ [Hma [Hmi [_ [Hpr _]]]]]]]]. auto.
Qed.

(** Each optional part is empty or starts with a separator. *)
Lemma dot_part_sep (comp : ascii -> bool) (t : string) :
  t = "" \/ (exists x, t = String "." x /\ all_bytes comp x = true /\ x <> "") ->
  sep_head t = true.
Proof. intros [->|[x [-> _]]]; reflexivity. Qed.

Lemma tag_part_sep (h : ascii) (t : string) :
  is_sep h = true -> t = "" \/ (exists i, t = String h i) -> sep_head t = true.
Proof. intros Hh [->|[i ->]]; [reflexivity|exact Hh]. Qed.

(** One digit run read against the text [0] followed by a separator. *)
Lemma align_zero (x r r' : string) :
  all_bytes is_digit x = true -> sep_head r = true -> sep_head r' = true ->
  x ++ r = String "0" r' -> x = "0" /\ r = r'.
Proof.
  intros Hx Hr Hr' E.
  apply (align x "0" r r'); auto using digits_no_sep.
Qed.

(** The numbers that [NewVersion] reads. *)
Lemma NewVersion_parts (ver : string) (v : Version) :
  NewVersion ver = Some v ->
  exists pv ma mi pa pr bu,
    ver = pv ++ ma ++ mi ++ pa ++ pr ++ bu /\
    (pv = "" \/ pv = "v") /\
    (all_bytes is_digit ma = true /\ ma <> "") /\
    (mi = "" \/ exists x, mi = String "." x /\ all_bytes is_digit x = true /\ x <> "") /\
    (pa = "" \/ exists x, pa = String "." x /\ all_bytes is_digit x = true /\ x <> "") /\
    (pr = "" \/ exists i, pr = String "-" i) /\
    (bu = "" \/ exists i, bu = String "+" i) /\
    major v = atoi ma /\
    minor v = atoi (GoStrings.TrimPrefix mi ".") /\
    patch v = atoi (GoStrings.TrimPrefix pa ".").
Proof.
  unfold NewVersion. destruct (first_full _) as [m|] eqn:E; [|discriminate].
  intros H. injection H as <-. apply first_full_In in E.
  apply version_pattern_parts in E.
  destruct E as [pv [Es [_ [Hv [Hma [Hmi [Hpa [Hpr Hbu]]]]]]]].
  rewrite append_empty_r in Es.
  exists pv, (cv_major m), (cv_minor m), (cv_patch m), (cv_pre m), (cv_build m).
  cbn [major minor patch]. repeat split; auto; tauto.
Qed.

(** [NewVersion] on the text that the parsers build for a wildcard: the
    major of the clause, its minor if any, [.0] and the prerelease tag.
    The patch is read as 0, and so is the minor when it is the [.0] that
    the parsers wrote. *)
Lemma NewVersion_fill (ma mi pr : string) (v : Version) :
  all_bytes is_cv ma = true -> ma <> "" ->
  (mi = "" \/ exists x, mi = String "." x /\ all_bytes is_cv x = true /\ x <> "") ->
  (pr = "" \/ exists i, pr = String "-" i) ->
  NewVersion (ma ++ mi ++ ".0" ++ pr) = Some v ->
  patch v = 0%N /\ (mi = ".0" -> minor v = 0%N).
Proof.
  intros Hma Hne Hmi Hpr H. apply NewVersion_parts in H.
  destruct H as [pv [ma' [mi' [pa' [pr' [bu' [E [Hv [[Hma' Hne'] [Hmi' [Hpa' [Hpr' [Hbu' [_ [Em Ep]]]]]]]]]]]]]]].
  rewrite Em, Ep. clear Em Ep v.
  assert (Spr : sep_head pr = true) by (apply (tag_part_sep "-"); auto).
  assert (Spr' : sep_head pr' = true) by (apply (tag_part_sep "-"); auto).
  assert (Sbu' : sep_head bu' = true) by (apply (tag_part_sep "+"); auto).
  assert (Stail : sep_head (pr' ++ bu') = true) by now apply sep_head_app.
  assert (Ntail : forall t, pr' ++ bu' = String "." t -> False).
  { intros t Et. destruct Hpr' as [->|[i ->]]; [destruct Hbu' as [->|[j ->]]|];
      discriminate Et. }
  (* no leading v *)
  assert (pv = "") as ->.
  { destruct Hv as [->| ->]; [reflexivity|exfalso].
    destruct ma as [|c ma]; [congruence|]. simpl in E. injection E as -> _.
    simpl in Hma. discriminate. }
  simpl in E.
  (* the majors *)
  assert (Smi' : sep_head mi' = true) by (eapply dot_part_sep; eauto).
  assert (Spa' : sep_head pa' = true) by (eapply dot_part_sep; eauto).
  assert (Smi : sep_head mi = true) by (eapply dot_part_sep; eauto).
  assert (S1 : sep_head (mi' ++ pa' ++ pr' ++ bu') = true)
    by (repeat apply sep_head_app; auto).
  assert (S2 : sep_head (mi ++ ".0" ++ pr) = true)
    by (apply sep_head_app; auto).
  symmetry in E.
  destruct (align _ _ _ _ (digits_no_sep _ Hma') (cv_no_sep _ Hma) S1 S2 E)
    as [-> E'].
  clear E S1 S2. rename E' into E.
  assert (S3 : sep_head (pa' ++ pr' ++ bu') = true)
    by (repeat apply sep_head_app; auto).
  destruct Hmi as [->|[x [-> [Hx Hxne]]]].
  - (* no minor in the clause *)
    simpl in E. split; [|intros; discriminate].
    destruct Hmi' as [->|[d [-> [Hd Hdne]]]].
    + destruct Hpa' as [->|[e [-> [He Hene]]]]; simpl in E.
      * exfalso. eapply Ntail; eauto.
      * injection E as E.
        destruct (align_zero _ _ _ He Stail Spr E) as [-> _]. reflexivity.
    + simpl in E. injection E as E.
      destruct (align_zero _ _ _ Hd S3 Spr E) as [-> E'].
      destruct Hpa' as [->|[e [-> [He Hene]]]]; simpl in *; [reflexivity|].
      exfalso. destruct Hpr as [->|[i ->]]; discriminate E'.
  - (* a minor in the clause *)
    simpl in E.
    assert (S4 : sep_head (".0" ++ pr) = true) by reflexivity.
    destruct Hmi' as [->|[d [-> [Hd Hdne]]]].
    + destruct Hpa' as [->|[e [-> [He Hene]]]]; simpl in E.
      * exfalso. eapply Ntail; eauto.
      * injection E as E.
        destruct (align _ _ _ _ (digits_no_sep _ He) (cv_no_sep _ Hx) Stail S4 E)
          as [_ E'].
        exfalso. eapply Ntail; eauto.
    + simpl in E. injection E as E.
      destruct (align _ _ _ _ (digits_no_sep _ Hd) (cv_no_sep _ Hx) S3 S4 E)
        as [-> E'].
      destruct Hpa' as [->|[e [-> [He Hene]]]]; simpl in E'.
      * exfalso. eapply Ntail; eauto.
      * injection E' as E'.
        destruct (align_zero _ _ _ He Stail Spr E') as [-> _].
        split; [reflexivity|].
        intros Hx0. injection Hx0 as ->. reflexivity.
Qed.

(** Every clause that [parseConstraint] returns holds 0 at the positions
    of the anchor that stand for a wildcard. *)
Lemma parseConstraint_zero_filled (s : string) (c : constraint) :
  parseConstraint s = inl c -> zero_filled c = true.
Proof.
  unfold parseConstraint.
  destruct (FindStringSubmatch s) as [m|] eqn:Em; [|discriminate].
  destruct (submatch_parts s m Em) as [[H3 H3ne] [H4 H6]].
  destruct (isX (m3 m)).
  { vm_compute (NewVersion "0.0.0"). intros H. injection H as <-. reflexivity. }
  destruct (isX (GoStrings.TrimPrefix (m4 m) ".")).
  { destruct (NewVersion _) as [a|] eqn:Ea; [|discriminate].
    intros H. injection H as <-. unfold zero_filled. cbn [dirty minorDirty con].
    change (m3 m ++ ".0.0" ++ m6 m) with (m3 m ++ ".0" ++ ".0" ++ m6 m) in Ea.
    apply NewVersion_fill in Ea; auto.
    - destruct Ea as [-> Hm]. rewrite (Hm eq_refl). reflexivity.
    - right. exists "0". repeat split. discriminate. }
  destruct (isX (GoStrings.TrimPrefix (m5 m) ".")).
  { destruct (NewVersion _) as [a|] eqn:Ea; [|discriminate].
    intros H. injection H as <-. unfold zero_filled. cbn [dirty minorDirty con].
    apply NewVersion_fill in Ea; auto.
    destruct Ea as [-> _]. reflexivity. }
  destruct (NewVersion _) as [a|]; [|discriminate].
  intros H. injection H as <-. reflexivity.
Qed.

(** ** The legacy functions against the ranges, at every version *)

(** Case analysis on the numbers and on the prerelease tags. *)
Ltac numbers :=
  repeat (match goal with
    | |- context [N.compare ?x ?y] =>
        destruct (N.compare_spec x y); try subst; try (exfalso; lia)
    | |- context [N.eqb ?x ?y] =>
        destruct (N.eqb_spec x y); try subst; try (exfalso; lia)
    | |- context [N.ltb ?x ?y] =>
        destruct (N.ltb_spec x y); try (exfalso; lia)
    end; cbv beta iota).

(** The comparison of two prerelease tags, by the cases on the tags. *)
Ltac tags :=
  repeat match goal with
    | |- context [comparePrerelease "" ""] =>
        change (comparePrerelease "" "") with Eq
    | |- context [comparePrerelease "" (String ?c ?s)] =>
        change (comparePrerelease "" (String c s)) with Gt
    | |- context [comparePrerelease (String ?c ?s) ""] =>
        change (comparePrerelease (String c s) "") with Lt
    | |- context [comparePrerelease (String ?c ?s) (String ?c' ?s')] =>
        let x := fresh "cmp" in
        generalize (comparePrerelease (String c s) (String c' s'));
        intros x; destruct x
    end.

(** Both sides computed, case by case. *)
Ltac versions w a :=
  destruct w as [wM wm wp [|wc wpre] wb]; destruct a as [aM am ap [|ac apre] ab];
  unfold prerelease_of, same_numbers, satisfiesRange, LessThan, GreaterThan,
    Equal, Compare, compare, release, Major, Minor, Patch, zero_numbers;
  cbn [major minor patch prerelease build Algebra.min Algebra.max includeMin
       includeMax excl existsb negb andb orb String.eqb];
  tags; numbers; reflexivity.

(** Each legacy function and the expansion of the same clause return the
    same boolean except at the versions given on the right. *)
Lemma caret_odds (c : constraint) (w : Version) :
  Bool.eqb (constraintCaret w c) (Satisfies (expandCaret (con c)) w)
  = negb (prerelease_of (release (major (con c) + 1) 0 0) w).
Proof.
  unfold constraintCaret, expandCaret. cbn [Satisfies].
  destruct c as [f ms a pr og md d]. cbn [con].
  versions w a.
Qed.

Lemma tilde_odds_spec (c : constraint) (w : Version) :
  is_caret (function c) = false ->
  Bool.eqb (constraintTilde w c) (Satisfies (expandTilde (con c) (minorDirty c)) w)
  = negb (tilde_odds c w).
Proof.
  intros Hf. unfold tilde_odds, upper. rewrite Hf. cbn [orb].
  unfold constraintTilde, expandTilde, expandCaret.
  destruct c as [f ms a pr og md d]. cbn [con minorDirty].
  destruct md; cbn [Satisfies negb andb]; versions w a.
Qed.

Lemma greater_odds (c : constraint) (w : Version) (eq : bool) :
  (if eq then constraintGreaterThanEqual w c else constraintGreaterThan w c)
  = Satisfies (expandGreater (con c) eq) w.
Proof.
  unfold constraintGreaterThanEqual, constraintGreaterThan, expandGreater.
  cbn [Satisfies]. unfold satisfiesRange, GreaterThan, Equal.
  cbn [Algebra.min Algebra.max includeMin includeMax excl existsb negb].
  destruct eq; destruct (Compare_cases w (con c)) as [H|[H|H]]; rewrite H;
    reflexivity.
Qed.

Lemma neq_odds (c : constraint) (w : Version) :
  dirty c = true -> zero_filled c = true -> is_caret (function c) = false ->
  Bool.eqb (constraintNotEqual w c)
    (Satisfies (expandNeq (con c) (minorDirty c) true) w)
  = negb (prerelease_of (upper c) w
          || (same_numbers w (con c) && LessThan w (con c))).
Proof.
  intros Hd Hz Hf. unfold upper, zero_filled in *. rewrite Hf. rewrite Hd in Hz.
  cbn [orb]. unfold constraintNotEqual, expandNeq. rewrite Hd.
  rewrite orb_true_r. cbn [negb]. rewrite Satisfies_Union.
  destruct c as [f ms a pr og md d']. cbn [con minorDirty] in *.
  apply andb_true_iff in Hz. destruct Hz as [Hp Hm].
  apply N.eqb_eq in Hp.
  destruct md; [apply N.eqb_eq in Hm|];
    cbn [Satisfies existsb major minor patch prerelease build negb andb];
    destruct w as [wM wm wp wpre wb]; destruct a as [aM am ap apre ab];
    cbn [major minor patch] in *; subst;
    (destruct wpre as [|wc wpre]; destruct apre as [|ac apre];
     unfold prerelease_of, same_numbers, satisfiesRange, LessThan, GreaterThan,
       Equal, Compare, compare, release, Major, Minor, Patch;
     cbn [major minor patch prerelease build Algebra.min Algebra.max includeMin
          includeMax excl existsb negb andb orb String.eqb];
     tags; numbers; reflexivity).
Qed.

Lemma less_odds (c : constraint) (w : Version) :
  zero_filled c = true -> (minorDirty c = true -> dirty c = true) ->
  is_caret (function c) = false ->
  Bool.eqb (constraintLessThan w c)
    (Satisfies (expandLess (con c) (minorDirty c) (dirty c) false) w)
  = negb (if dirty c then
            if minorDirty c then prerelease_of (upper c) w
            else (minor (con c) <? minor w)%N && LessThan w (upper c)
          else same_numbers w (con c) && negb (prerelease w =? "")
               && negb (LessThan w (con c))).
Proof.
  intros Hz Hmd Hf. unfold upper, zero_filled in *. rewrite Hf. cbn [orb].
  unfold constraintLessThan, expandLess.
  destruct c as [f ms a pr og md d]. cbn [con minorDirty dirty] in *.
  destruct w as [wM wm wp wpre wb]; destruct a as [aM am ap apre ab].
  cbn [major minor patch prerelease build] in *.
  destruct d; [apply andb_true_iff in Hz; destruct Hz as [Hp Hm];
               apply N.eqb_eq in Hp; subst ap|];
    (destruct md; [first [apply N.eqb_eq in Hm; subst am
                         | discriminate (Hmd eq_refl)]|]);
    cbn [Satisfies negb andb major minor patch prerelease build];
    destruct wpre as [|wc wpre]; destruct apre as [|ac apre];
    unfold prerelease_of, same_numbers, satisfiesRange, LessThan, GreaterThan,
      Equal, Compare, compare, release, Major, Minor, Patch;
    cbn [major minor patch prerelease build Algebra.min Algebra.max includeMin
         includeMax excl existsb negb andb orb String.eqb];
    tags; numbers; reflexivity.
Qed.

Lemma less_equal_odds (c : constraint) (w : Version) :
  zero_filled c = true -> (minorDirty c = true -> dirty c = true) ->
  is_caret (function c) = false ->
  Bool.eqb (constraintLessThanEqual w c)
    (Satisfies (expandLess (con c) (minorDirty c) (dirty c) true) w)
  = negb (if dirty c then
            if minorDirty c then same_numbers w (upper c)
            else (minor (con c) <? minor w)%N && negb (GreaterThan w (upper c))
          else same_numbers w (con c) && GreaterThan w (con c)).
Proof.
  intros Hz Hmd Hf. unfold upper, zero_filled in *. rewrite Hf. cbn [orb].
  unfold constraintLessThanEqual, expandLess.
  destruct c as [f ms a pr og md d]. cbn [con minorDirty dirty] in *.
  destruct w as [wM wm wp wpre wb]; destruct a as [aM am ap apre ab].
  cbn [major minor patch prerelease build] in *.
  destruct d; [apply andb_true_iff in Hz; destruct Hz as [Hp Hm];
               apply N.eqb_eq in Hp; subst ap|];
    (destruct md; [first [apply N.eqb_eq in Hm; subst am
                         | discriminate (Hmd eq_refl)]|]);
    cbn [Satisfies negb andb major minor patch prerelease build];
    destruct wpre as [|wc wpre]; destruct apre as [|ac apre];
    unfold prerelease_of, same_numbers, satisfiesRange, LessThan, GreaterThan,
      Equal, Compare, compare, release, Major, Minor, Patch;
    cbn [major minor patch prerelease build Algebra.min Algebra.max includeMin
         includeMax excl existsb negb andb orb String.eqb];
    tags; numbers; reflexivity.
Qed.

(** ** The two parsers on one clause *)

(** Equality of booleans, as a boolean. *)
Lemma eqb_true_r (b : bool) : Bool.eqb b true = negb (negb b).
Proof. now destruct b. Qed.

Lemma eqb_same (b b' : bool) : b = b' -> Bool.eqb b b' = negb false.
Proof. intros ->. now destruct b'. Qed.

(** The operator of a parsed clause. *)
Lemma parsed_key (s : string) (c : constraint) :
  parseConstraint s = inl c ->
  exists key,
    function c = constraintOps key /\ predicate c = op_text key /\
    (minorDirty c = true -> dirty c = true).
Proof.
  unfold parseConstraint.
  destruct (FindStringSubmatch s) as [m|]; [|discriminate].
  intros Hc. exists (m1 m).
  destruct (isX (m3 m)); [|destruct (isX _); [|destruct (isX _)]];
    (destruct (NewVersion _) as [a|]; [|discriminate]);
    injection Hc as <-; cbn [function predicate minorDirty dirty];
    repeat split; first [intros H; discriminate H | auto].
Qed.

(** What [parseConstraintNu] returns for a text that [parseConstraint]
    accepts: [any] when the major is a wildcard, and otherwise the
    expansion that the switch chooses, on the anchor and the wildcard
    flags of the legacy clause. *)
Lemma parseConstraintNu_wild (s : string) (c : constraint) :
  parseConstraint s = inl c ->
  major_wild s = true ->
  parseConstraintNu s = inl any /\
  con c = release 0 0 0 /\ dirty c = true /\ minorDirty c = false.
Proof.
  unfold parseConstraint, parseConstraintNu, major_wild.
  destruct (FindStringSubmatch s) as [m|]; [|discriminate].
  intros Hc Hw. rewrite Hw in *. split; [reflexivity|].
  vm_compute (NewVersion "0.0.0") in Hc. injection Hc as <-.
  repeat split.
Qed.

Lemma parseConstraintNu_switch (s : string) (c : constraint) :
  parseConstraint s = inl c ->
  major_wild s = false ->
  exists key,
    function c = constraintOps key /\
    predicate c = op_text key /\
    parseConstraintNu s =
      match key with
      | op_caret => inl (expandCaret (con c))
      | op_tilde => inl (expandTilde (con c) (minorDirty c))
      | op_neq => inl (expandNeq (con c) (minorDirty c) (dirty c))
      | op_empty | op_eq =>
          if dirty c then inl (expandTilde (con c) (minorDirty c))
          else inl (Algebra.exact (con c))
      | op_gt => inl (expandGreater (con c) false)
      | op_ge | op_eg => inl (expandGreater (con c) true)
      | op_lt => inl (expandLess (con c) (minorDirty c) (dirty c) false)
      | op_le | op_el => inl (expandLess (con c) (minorDirty c) (dirty c) true)
      | op_tildegt => inr (Errorf "Unrecognized predicate %q" [arg_string "~>"])
      end.
Proof.
  unfold parseConstraint, parseConstraintNu, major_wild.
  destruct (FindStringSubmatch s) as [m|]; [|discriminate].
  intros Hc Hw. rewrite Hw in *. exists (m1 m).
  destruct (isX (GoStrings.TrimPrefix (m4 m) "."));
    [|destruct (isX (GoStrings.TrimPrefix (m5 m) "."))];
    (destruct (NewVersion _) as [a|]; [|discriminate]);
    injection Hc as <-; cbn [function predicate minorDirty dirty con];
    (split; [reflexivity|]); (split; [reflexivity|]);
    destruct (m1 m); reflexivity.
Qed.

(** The tilde function on the clause as [constraintTildeOrEqual] leaves
    it. *)
Lemma tilde_or_equal_odds (c : constraint) (w : Version) (t : string) :
  is_caret (function c) = false ->
  Bool.eqb (constraintTilde w (set_msg c t))
    (Satisfies (expandTilde (con c) (minorDirty c)) w)
  = negb (tilde_odds c w).
Proof.
  intros Hf. apply (tilde_odds_spec (set_msg c t) w Hf).
Qed.

(** On one clause, the legacy check and the satisfaction of the
    constraint of [parseConstraintNu] differ exactly where the clause is
    at odds. *)
Lemma clause_odds (s : string) (c : constraint) (k : Constraint) (w : Version) :
  parseConstraint s = inl c ->
  parseConstraintNu s = inl k ->
  Bool.eqb (fst (check c w)) (Satisfies k w) = negb (odds_text s w).
Proof.
  intros Hc Hk. unfold odds_text. rewrite Hc.
  pose proof (parseConstraint_zero_filled s c Hc) as Hz.
  destruct (major_wild s) eqn:Ew.
  - (* the major is a wildcard *)
    destruct (parseConstraintNu_wild s c Hc Ew) as [Hn _].
    rewrite Hn in Hk. injection Hk as <-.
    cbn [at_odds Satisfies]. apply eqb_true_r.
  - destruct (parseConstraintNu_switch s c Hc Ew) as [key [Hf [_ Hn]]].
    destruct (parsed_key s c Hc) as [_ [_ [_ Hmd]]].
    rewrite Hk in Hn.
    assert (Hcar : key <> op_caret -> is_caret (function c) = false)
      by (rewrite Hf; destruct key; intros H; first [reflexivity|congruence]).
    unfold at_odds, check. rewrite Hf.
    destruct key; cbn [constraintOps call fst] in *;
      try (specialize (Hcar ltac:(discriminate))).
    + (* no operator *)
      unfold constraintTildeOrEqual. destruct (dirty c); injection Hn as ->;
        cbn [fst andb]; [|now apply eqb_same].
      now apply tilde_or_equal_odds.
    + (* = *)
      unfold constraintTildeOrEqual. destruct (dirty c); injection Hn as ->;
        cbn [fst andb]; [|now apply eqb_same].
      now apply tilde_or_equal_odds.
    + (* != *)
      injection Hn as ->. destruct (dirty c) eqn:Ed; cbn [andb].
      * now apply neq_odds.
      * destruct (minorDirty c); [discriminate (Hmd eq_refl)|].
        apply eqb_same.
        now rewrite constraintNotEqual_plain, expandNeq_exact.
    + (* > *)
      injection Hn as ->. apply eqb_same, (greater_odds c w false).
    + (* < *)
      injection Hn as ->. now apply less_odds.
    + (* >= *)
      injection Hn as ->. apply eqb_same, (greater_odds c w true).
    + (* => *)
      injection Hn as ->. apply eqb_same, (greater_odds c w true).
    + (* <= *)
      injection Hn as ->. now apply less_equal_odds.
    + (* =< *)
      injection Hn as ->. now apply less_equal_odds.
    + (* ~ *)
      injection Hn as ->. now apply tilde_odds_spec.
    + (* ~> *)
      discriminate Hn.
    + (* ^ *)
      injection Hn as ->. unfold upper. rewrite Hf. apply caret_odds.
Qed.

(** ** The two pipelines on the same text *)

(** A group, and the groups, without a clause at odds. *)
Lemma group_odds (w : Version) (l : list string) :
  forall (o : constraintGroup) (ks : list Constraint),
    for_each parseConstraint l = inl o ->
    for_each parseConstraintNu l = inl ks ->
    existsb (fun s => odds_text s w) l = false ->
    group_holds w o = forallb (fun k => Satisfies k w) ks.
Proof.
  induction l as [|s l IH]; simpl; intros o ks Ho Hks Hp.
  - injection Ho as <-. injection Hks as <-. reflexivity.
  - destruct (parseConstraint s) as [c|] eqn:Ec; [|discriminate].
    destruct (for_each parseConstraint l) as [o'|]; [|discriminate].
    destruct (parseConstraintNu s) as [k|] eqn:Ek; [|discriminate].
    destruct (for_each parseConstraintNu l) as [ks'|]; [|discriminate].
    injection Ho as <-. injection Hks as <-.
    apply orb_false_iff in Hp. destruct Hp as [Hc Hp].
    pose proof (clause_odds s c k w Ec Ek) as H. rewrite Hc in H.
    apply eqb_prop in H. unfold group_holds in *. cbn [forallb].
    rewrite H. f_equal. now apply IH.
Qed.

Lemma groups_odds (w : Version) (ors : list string) :
  forall (gs : list constraintGroup) (ks : list Constraint),
    for_each (fun v => for_each parseConstraint (GoStrings.Split v ",")) ors
      = inl gs ->
    for_each
      (fun v =>
         match for_each parseConstraintNu (GoStrings.Split v ",") with
         | inr err => inr err
         | inl result => inl (Intersection result)
         end) ors = inl ks ->
    existsb (existsb (fun s => odds_text s w))
      (map (fun v => GoStrings.Split v ",") ors) = false ->
    some_group_holds w gs = existsb (fun k => Satisfies k w) ks.
Proof.
  induction ors as [|v ors IH]; simpl; intros gs ks Hgs Hks Hp.
  - injection Hgs as <-. injection Hks as <-. reflexivity.
  - destruct (for_each parseConstraint (GoStrings.Split v ",")) as [o|] eqn:Eo;
      [|discriminate].
    destruct (for_each _ ors) as [gs'|] in Hgs, IH; [|discriminate].
    destruct (for_each parseConstraintNu (GoStrings.Split v ",")) as [r|] eqn:Er;
      [|discriminate].
    destruct (for_each _ ors) as [ks'|] in Hks, IH; [|discriminate].
    injection Hgs as <-. injection Hks as <-.
    apply orb_false_iff in Hp. destruct Hp as [Ho Hp].
    unfold some_group_holds in *. cbn [existsb].
    rewrite Satisfies_Intersection.
    rewrite (group_odds w _ o r Eo Er Ho).
    f_equal. now apply IH.
Qed.

(** The two constructors on a text of one clause. *)
Lemma one_clause (text s : string) (cs : Constraints) (k : Constraint) (w : Version) :
  clauses text = [[s]] ->
  NewConstraint text = inl cs ->
  NewConstraintNu text = inl k ->
  exists c k',
    parseConstraint s = inl c /\ parseConstraintNu s = inl k' /\
    fst (Check cs w) = fst (check c w) /\ Satisfies k w = Satisfies k' w.
Proof.
  unfold clauses, NewConstraint, NewConstraintNu. intros Hs Hcs Hk.
  destruct (GoStrings.Split (rewriteRange text) "||") as [|v [|v' ors]];
    try discriminate.
  cbn [map] in Hs. injection Hs as Hs. cbn [for_each] in Hcs, Hk.
  rewrite Hs in Hcs, Hk. cbn [for_each] in Hcs, Hk.
  destruct (parseConstraint s) as [c|]; [|discriminate].
  destruct (parseConstraintNu s) as [k'|]; [|discriminate].
  injection Hcs as <-. injection Hk as <-.
  exists c, k'. split; [reflexivity|]. split; [reflexivity|].
  rewrite Check_fst, Satisfies_Union. cbn [constraints existsb].
  rewrite Satisfies_Intersection.
  unfold some_group_holds, group_holds. cbn [existsb forallb].
  now rewrite !andb_true_r, !orb_false_r.
Qed.

(** C10, as the code has it.  For a text that both [NewConstraint] and
    [NewConstraintNu] accept and for every version [w], with or without
    prerelease tag, [Check] and [Satisfies] return the same boolean when
    no clause of the text is at odds at [w]; and for a text of one clause
    they return the same boolean exactly when the clause is not at odds at
    [w].  With the anchor [v] and the upper bound [hi] of the clause
    ([upper]), a clause is at odds at [w] in these cases and in no other
    ([at_odds]).  The major is a wildcard: the legacy clause rejects [w].
    Otherwise, caret: [w] is a prerelease of [hi].  Tilde, and equality
    with a wildcard: [w] is not below [hi] when [v] has the numbers 0.0.0,
    and [w] is a prerelease of [hi] when not.  Not-equal with a wildcard:
    [w] is a prerelease of [hi], or has the numbers of [v] and is below
    [v].  Less-than: without wildcard, [w] has the numbers of [v] and a
    prerelease tag and is not below [v]; with a wildcard minor, [w] is a
    prerelease of [hi]; with a wildcard patch only, the minor of [w] is
    above that of [v] and [w] is below [hi].  Less-than-or-equal: without
    wildcard, [w] has the numbers of [v] and is above [v]; with a wildcard
    minor, [w] has the numbers of [hi]; with a wildcard patch only, the
    minor of [w] is above that of [v] and [w] is not above [hi].
    Greater-than and greater-than-or-equal clauses, and equality and
    not-equal clauses without wildcard, are never at odds. *)
Theorem pipelines_agree_unless_at_odds
  (text : string) (cs : Constraints) (k : Constraint) (w : Version) :
  NewConstraint text = inl cs ->
  NewConstraintNu text = inl k ->
  (existsb (existsb (fun s => odds_text s w)) (clauses text) = false ->
   fst (Check cs w) = Satisfies k w)
  /\ (forall s, clauses text = [[s]] ->
        (fst (Check cs w) = Satisfies k w <-> odds_text s w = false)).
Proof.
  intros Hcs Hk. split.
  - unfold NewConstraint, NewConstraintNu, clauses in *. intros Hp.
    destruct (for_each _ _) as [gs|] eqn:Eg in Hcs; [|discriminate].
    destruct (for_each _ _) as [ks|] eqn:Ek in Hk; [|discriminate].
    injection Hcs as <-. injection Hk as <-.
    rewrite Check_fst, Satisfies_Union. cbn [constraints].
    eapply groups_odds; eauto.
  - intros s Hs.
    destruct (one_clause text s cs k w Hs Hcs Hk) as [c [k' [Hc [Hk' [-> ->]]]]].
    pose proof (clause_odds s c k' w Hc Hk') as H.
    destruct (odds_text s w); cbn [negb] in H.
    + apply eqb_false_iff in H. split; [intros E; contradiction|discriminate].
    + apply eqb_prop in H. split; auto.
Qed.

Lemma pipelines_agree_unless_at_odds_witness :
  exists cs k,
    NewConstraint ">=1.2.0-beta, <2.x || ^3.1.4 || ~0.2.x, !=0.2.5 || =4.*" = inl cs /\
    NewConstraintNu ">=1.2.0-beta, <2.x || ^3.1.4 || ~0.2.x, !=0.2.5 || =4.*" = inl k /\
    existsb (existsb (fun s => odds_text s (mkVersion 1 5 0 "rc.1" "")))
      (clauses ">=1.2.0-beta, <2.x || ^3.1.4 || ~0.2.x, !=0.2.5 || =4.*") = false /\
    fst (Check cs (mkVersion 1 5 0 "rc.1" ""))
    = Satisfies k (mkVersion 1 5 0 "rc.1" "").
Proof.
  eexists. eexists.
  split; [vm_compute; reflexivity|].
  split; [vm_compute; reflexivity|].
  split; [vm_compute; reflexivity|].
  refine (proj1 (pipelines_agree_unless_at_odds
                   ">=1.2.0-beta, <2.x || ^3.1.4 || ~0.2.x, !=0.2.5 || =4.*"
                   _ _ (mkVersion 1 5 0 "rc.1" "") _ _) _);
    vm_compute; reflexivity.
Defined.

(** C10 fails as stated.  On each of these texts the two pipelines
    return different booleans at the version given, one for each case of
    [at_odds]: [~0.0.0] at 5.0.0; [!=x] at 0.0.1; [^1.2.3] at 2.0.0-alpha;
    [~1.2.3] and [=1.2.x] at 1.3.0-alpha; [!=1.2.x] at 1.2.0-alpha and at
    1.3.0-alpha; [<1.2.3-beta] at 1.2.3-rc; [<1.x] at 2.0.0-alpha;
    [<1.2.x] at 0.5.0; [<=1.2.3-beta] at 1.2.3; [<=1.x] at 2.0.0;
    [<=1.2.x] at 1.3.0. *)
Lemma pipelines_disagree :
  (check_text "~0.0.0" (release 5 0 0) = Some true /\
   satisfies_text "~0.0.0" (release 5 0 0) = Some false)
  /\ (check_text "!=x" (release 0 0 1) = Some false /\
      satisfies_text "!=x" (release 0 0 1) = Some true)
  /\ (check_text "^1.2.3" (mkVersion 2 0 0 "alpha" "") = Some false /\
      satisfies_text "^1.2.3" (mkVersion 2 0 0 "alpha" "") = Some true)
  /\ (check_text "~1.2.3" (mkVersion 1 3 0 "alpha" "") = Some false /\
      satisfies_text "~1.2.3" (mkVersion 1 3 0 "alpha" "") = Some true)
  /\ (check_text "=1.2.x" (mkVersion 1 3 0 "alpha" "") = Some false /\
      satisfies_text "=1.2.x" (mkVersion 1 3 0 "alpha" "") = Some true)
  /\ (check_text "!=1.2.x" (mkVersion 1 2 0 "alpha" "") = Some false /\
      satisfies_text "!=1.2.x" (mkVersion 1 2 0 "alpha" "") = Some true)
  /\ (check_text "!=1.2.x" (mkVersion 1 3 0 "alpha" "") = Some true /\
      satisfies_text "!=1.2.x" (mkVersion 1 3 0 "alpha" "") = Some false)
  /\ (check_text "<1.2.3-beta" (mkVersion 1 2 3 "rc" "") = Some false /\
      satisfies_text "<1.2.3-beta" (mkVersion 1 2 3 "rc" "") = Some true)
  /\ (check_text "<1.x" (mkVersion 2 0 0 "alpha" "") = Some false /\
      satisfies_text "<1.x" (mkVersion 2 0 0 "alpha" "") = Some true)
  /\ (check_text "<1.2.x" (release 0 5 0) = Some false /\
      satisfies_text "<1.2.x" (release 0 5 0) = Some true)
  /\ (check_text "<=1.2.3-beta" (release 1 2 3) = Some false /\
      satisfies_text "<=1.2.3-beta" (release 1 2 3) = Some true)
  /\ (check_text "<=1.x" (release 2 0 0) = Some false /\
      satisfies_text "<=1.x" (release 2 0 0) = Some true)
  /\ (check_text "<=1.2.x" (release 1 3 0) = Some false /\
      satisfies_text "<=1.2.x" (release 1 3 0) = Some true).
Proof. vm_compute. repeat split; reflexivity. Qed.

(** ** Caret, tilde and not-equal clauses *)













